(** * soogo: the VLSE benchmark driver and the CycleSearch acquisition

    A shallow embedding of [run_optimizer]
    (examples/vlse_benchmark/vlse_bench.py) and of the CycleSearch
    acquisition exercised by tests/test_acquisition.py.

    [run_optimizer] is Python code that copies and mutates objects, so it is
    embedded in a small state-and-error monad over an explicit object heap.
    Its collaborators (the sampler, the objective, the surrogate's [update],
    the optimizers of [soogo.optimize]) are section variables: the driver is
    verified for every behaviour of theirs. *)

From Stdlib Require Import ZArith QArith Qround Lqa List Bool Lia Permutation Sorted.
From Stdlib Require String.
From stdpp Require Import base option list.
Import ListNotations.

Local Open Scope Z_scope.

(** ** Python values that occur in bounds *)

(** A bound is a Python number; [isinstance(v, int)] looks at the type, not
    at the value: [1.0] is a float. *)
Inductive PyNum : Type :=
| PyInt (z : Z)
| PyFloat (q : Q).

Definition isinstance_int (v : PyNum) : bool :=
  match v with PyInt _ => true | PyFloat _ => false end.

(** The number is whole: an int, or a float with no fractional part. *)
Definition is_whole (v : PyNum) : bool :=
  match v with
  | PyInt _ => true
  | PyFloat q => (Z.pos (Qden (Qred q)) =? 1)
  end.

Definition num_value (v : PyNum) : Q :=
  match v with PyInt z => inject_Z z | PyFloat q => q end.

(** [bounds[i]] is the pair [(bounds[i][0], bounds[i][1])]. *)
Abbreviation Bounds := (list (PyNum * PyNum)).

(** ** Objects *)

(** A Python reference that may be [None]. *)
Abbreviation PyRef := (option nat) (only parsing).

Abbreviation loc := nat (only parsing).

Inductive ModelClass : Type := RbfModel | GaussianProcess.

Definition isinstance_RbfModel (c : ModelClass) : bool :=
  match c with RbfModel => true | GaussianProcess => false end.

(** The callables of [soogo.optimize] that the [algorithms] table uses, and
    any other callable. [==] on functions is identity. *)
Inductive Optimizer : Type :=
| multistart_msrs
| dycors
| cptv
| cptvl
| surrogate_optimization
| bayesian_optimization
| other_callable (id : nat).

Definition Optimizer_eqb (a b : Optimizer) : bool :=
  match a, b with
  | multistart_msrs, multistart_msrs => true
  | dycors, dycors => true
  | cptv, cptv => true
  | cptvl, cptvl => true
  | surrogate_optimization, surrogate_optimization => true
  | bayesian_optimization, bayesian_optimization => true
  | other_callable i, other_callable j => Nat.eqb i j
  | _, _ => false
  end.

(** [DanglingReference] cannot happen in Python: it is raised on a heap that
    no Python program builds (a reference to no object, or a sampler
    attribute that holds a model or an acquisition). *)
Inductive Error : Type :=
| AssertionError
| AttributeError
| DanglingReference.

(** The keys of the [algorithms] table. *)
Inductive AlgoName : Type := SRS | DYCORS | CPTV | CPTVl | MLSL | GP.

Inductive AcqClass : Type := MinimizeSurrogate | MaximizeEI | OtherAcquisition.

(** ** The collaborators of the driver

    What the driver only passes around: samples (2-D arrays), objective
    values, the fitted state of a surrogate, the private state of an
    acquisition object, the optimizer's result, and numpy's global random
    state. *)
Class Collaborators : Type := {
  Sample : Type;
  Values : Type;
  ModelState : Type;
  AcqState : Type;
  OptimizeResult : Type;
  Rng : Type
}.

Section Driver.

Context `{C : Collaborators}.

(** An object on the heap. The heap is the list of the objects made so
    far and a reference is an index into it. An attribute that may be
    missing is an [option]: [hasattr(o, "maxeval")] is [is_Some]. The
    sampler of an acquisition is an object of its own, held by reference. *)
Inductive Obj : Type :=
| OModel (cls : ModelClass) (iindex : list nat) (st : ModelState)
| OAcq (cls : AcqClass) (maxeval : option Z) (sampler : option loc) (st : AcqState)
| OSampler (n : Z).

(** The optimizer call of one run, as the driver makes it: the keyword
    [acquisitionFunc] is given ([Some r], where [r] itself may be [None]) or
    not given at all ([None]). *)
Record OptimizerCall : Type := mkCall {
  call_optimizer : Optimizer;
  call_bounds : Bounds;
  call_maxeval : Z;
  call_surrogateModel : PyRef;
  call_acquisitionFunc : option PyRef;
  call_disp : bool
}.

(** What the driver does to the outside, in order. [EOptimize] keeps the
    heap and the random state as they are when the optimizer is entered. *)
Inductive Event : Type :=
| ESeed (i : Z)
| ESample (n : Z) (b : Bounds)
| EObjective (x : Sample)
| EUpdate (m : loc) (x : Sample) (y : Values)
| EOptimize (c : OptimizerCall) (h : list Obj) (g : Rng)
| EPrint_x (r : OptimizeResult)
| EPrint_fx (r : OptimizeResult).

Record Objective : Type := mkObjective {
  domain : Bounds;
  objf : Sample -> Values
}.

Record Algo : Type := mkAlgo {
  algo_model : PyRef;
  algo_optimizer : Optimizer;
  algo_acquisition : PyRef
}.

(** The code the driver calls and this repository does not hold. *)
Class Library : Type := {
  (** [np.random.seed(i)]. *)
  seed : Z -> Rng;
  (** [sampling.Sampler(n).get_slhd_sample(bounds)], drawing from the global
      random state. *)
  get_slhd_sample : Z -> Bounds -> Rng -> Sample * Rng;
  (** [model.update(x, y)]: refits the model, its class and [iindex] stay. *)
  update : ModelClass -> list nat -> ModelState -> Sample -> Values -> ModelState;
  (** The optimizer: it evaluates the objective, mutates the objects it was
      given, may create objects and draws random numbers. *)
  optimize : Objective -> OptimizerCall -> list Obj -> Rng -> OptimizeResult * list Obj * Rng
}.

Context `{L : Library}.

(** *** The monad *)

Record State : Type := mkState {
  heap : list Obj;
  rng : Rng;
  trace : list Event
}.

(** A raised exception leaves the effects made so far in place. *)
Definition M (A : Type) : Type := State -> (Error + A) * State.

Definition ret {A} (a : A) : M A := fun s => (inr a, s).
Definition raise {A} (e : Error) : M A := fun s => (inl e, s).
Definition bind {A B} (c : M A) (k : A -> M B) : M B :=
  fun s => match c s with
           | (inl e, s') => (inl e, s')
           | (inr a, s') => k a s'
           end.

Notation "x <- c ;; k" := (bind c (fun x => k))
  (at level 62, c at next level, right associativity).
Notation "c ;;; k" := (bind c (fun _ => k))
  (at level 62, right associativity).

Definition emit (e : Event) : M unit :=
  fun s => (inr tt, mkState (heap s) (rng s) (trace s ++ [e])).

Definition read (l : loc) : M Obj :=
  fun s => match heap s !! l with
           | Some o => (inr o, s)
           | None => (inl DanglingReference, s)
           end.

Definition write (l : loc) (o : Obj) : M unit :=
  fun s => (inr tt, mkState (<[l := o]> (heap s)) (rng s) (trace s)).

Definition alloc (o : Obj) : M loc :=
  fun s => (inr (length (heap s)), mkState (heap s ++ [o]) (rng s) (trace s)).

Definition assert (b : bool) : M unit :=
  if b then ret tt else raise AssertionError.

Fixpoint mapM {A B} (f : A -> M B) (l : list A) : M (list B) :=
  match l with
  | [] => ret []
  | a :: l' => b <- f a ;; bs <- mapM f l' ;; ret (b :: bs)
  end.

(** *** copy.deepcopy *)

(** The copy of an object shares nothing with the original: an acquisition's
    sampler is copied with it. *)
Definition deepcopy (l : loc) : M loc :=
  o <- read l ;;
  match o with
  | OAcq cls me (Some ls) st =>
      sm <- read ls ;;
      match sm with
      | OSampler n =>
          ls' <- alloc (OSampler n) ;;
          alloc (OAcq cls me (Some ls') st)
      | _ => raise DanglingReference
      end
  | _ => alloc o
  end.

(** [deepcopy(None)] is [None]. *)
Definition deepcopy_ref (r : PyRef) : M PyRef :=
  match r with
  | None => ret None
  | Some l => l' <- deepcopy l ;; ret (Some l')
  end.

(** *** run_optimizer *)

(** [tuple(i for i in range(nArgs)
          if isinstance(bounds[i][0], int) and isinstance(bounds[i][1], int))] *)
Definition integral_indices (bounds : Bounds) : list nat :=
  List.filter
    (fun i => match bounds !! i with
              | Some (lo, hi) => isinstance_int lo && isinstance_int hi
              | None => false
              end)
    (seq 0 (length bounds)).

(** Lines 72-78: the working copy of the model and its integrality. *)
Definition init_model (algo : Algo) (bounds : Bounds) : M PyRef :=
  model <- deepcopy_ref (algo_model algo) ;;
  match model with
  | None => ret None
  | Some m =>
      o <- read m ;;
      match o with
      | OModel cls ii st =>
          (if isinstance_RbfModel cls
           then write m (OModel cls (integral_indices bounds) st)
           else ret tt) ;;;
          ret model
      | _ => ret model
      end
  end.

(** Lines 81-85: the working copy of the acquisition. *)
Definition init_acquisition (algo : Algo) (maxEval : Z) (nArgs : nat) : M PyRef :=
  acquisitionFunc <- deepcopy_ref (algo_acquisition algo) ;;
  match acquisitionFunc with
  | None => ret None
  | Some a =>
      o <- read a ;;
      match o with
      | OAcq cls me sm st =>
          let me' := match me with Some _ => Some maxEval | None => None end in
          write a (OAcq cls me' sm st) ;;;
          match sm with
          | Some ls =>
              s <- read ls ;;
              match s with
              | OSampler _ =>
                  write ls (OSampler (Z.min (100 * Z.of_nat nArgs) 5000))
              | _ => raise DanglingReference
              end
          | None => ret tt
          end ;;;
          ret (Some a)
      | _ => ret (Some a)
      end
  end.

Definition draw_sample (n : Z) (bounds : Bounds) : M Sample :=
  fun s =>
    let '(x, g) := get_slhd_sample n bounds (rng s) in
    (inr x, mkState (heap s) g (trace s ++ [ESample n bounds])).

Definition set_seed (i : Z) : M unit :=
  fun s => (inr tt, mkState (heap s) (seed i) (trace s ++ [ESeed i])).

Definition eval_objective (f : Objective) (x : Sample) : M Values :=
  emit (EObjective x) ;;; ret (objf f x).

(** [modelIter.update(sample0, fsample0)]: only a surrogate has [update]. *)
Definition model_update (model : PyRef) (x : Sample) (y : Values) : M unit :=
  match model with
  | None => raise AttributeError
  | Some m =>
      o <- read m ;;
      match o with
      | OModel cls ii st =>
          emit (EUpdate m x y) ;;;
          write m (OModel cls ii (update cls ii st x y))
      | _ => raise AttributeError
      end
  end.

Definition call_optimize (f : Objective) (c : OptimizerCall) : M OptimizeResult :=
  fun s =>
    let '(r, h, g) := optimize f c (heap s) (rng s) in
    (inr r, mkState h g (trace s ++ [EOptimize c (heap s) (rng s)])).

(** Lines 91-124: one pass of the loop. *)
Definition run_once (f : Objective) (maxEval : Z) (optimizer : Optimizer)
    (bounds : Bounds) (disp : bool) (model acquisitionFunc : PyRef)
    (i : nat) : M OptimizeResult :=
  let nArgs := Z.of_nat (length bounds) in
  set_seed (Z.of_nat i) ;;;
  sample0 <- draw_sample (2 * (nArgs + 1)) bounds ;;
  fsample0 <- eval_objective f sample0 ;;
  modelIter <- deepcopy_ref model ;;
  model_update modelIter sample0 fsample0 ;;;
  res <- (if Optimizer_eqb optimizer surrogate_optimization
             || Optimizer_eqb optimizer dycors
          then
            acquisitionFuncIter <- deepcopy_ref acquisitionFunc ;;
            call_optimize f
              (mkCall optimizer bounds (maxEval - 2 * (nArgs + 1)) modelIter
                      (Some acquisitionFuncIter) disp)
          else
            call_optimize f
              (mkCall optimizer bounds (maxEval - 2 * (nArgs + 1)) modelIter
                      None disp)) ;;
  emit (EPrint_x res) ;;;
  emit (EPrint_fx res) ;;;
  ret res.

Definition run_optimizer (f : Objective) (maxEval : Z) (algo : Algo)
    (nRuns : Z) (bounds : option Bounds) (disp : bool) : M (list OptimizeResult) :=
  let bounds := match bounds with None => domain f | Some b => b end in
  let nArgs := length bounds in
  assert (Nat.eqb (length bounds) (length (domain f))) ;;;
  model <- init_model algo bounds ;;
  acquisitionFunc <- init_acquisition algo maxEval nArgs ;;
  let optimizer := algo_optimizer algo in
  mapM (run_once f maxEval optimizer bounds disp model acquisitionFunc)
       (seq 0 (Z.to_nat nRuns)).

End Driver.

(** ** Vocabulary of the statements *)

Section DriverSpec.

Context `{L : Library}.

(** The bounds a run uses: the caller's, or the objective's domain. *)
Definition bounds_of (f : Objective) (bounds : option Bounds) : Bounds :=
  match bounds with None => domain f | Some b => b end.

(** The size of the initial design of a run over [bounds]. *)
Definition initial_design_size (bounds : Bounds) : Z :=
  2 * (Z.of_nat (length bounds) + 1).

(** Some dimension has [low >= high]. *)
Definition has_empty_dimension (bounds : Bounds) : bool :=
  existsb (fun lh => Qle_bool (num_value (snd lh)) (num_value (fst lh))) bounds.

(** The optimizers to which the driver hands the acquisition. *)
Definition forwards_acquisition (o : Optimizer) : Prop :=
  o = surrogate_optimization \/ o = dycors.

(** The events of run [i] that returned [r]. *)
Definition run_events (i : nat) (bounds : Bounds) (x : Sample) (y : Values)
    (m : loc) (c : OptimizerCall) (h : list Obj) (g : Rng) (r : OptimizeResult)
    : list Event :=
  [ESeed (Z.of_nat i); ESample (initial_design_size bounds) bounds;
   EObjective x; EUpdate m x y; EOptimize c h g; EPrint_x r; EPrint_fx r].

(** The objects of an acquisition: itself and its sampler. *)
Definition acq_locs (h : list Obj) (r : PyRef) : list loc :=
  match r with
  | Some a =>
      a :: match h !! a with
           | Some (OAcq _ _ (Some ls) _) => [ls]
           | _ => []
           end
  | None => []
  end.

(** The objects an optimizer call can reach through its arguments: the
    model, the acquisition and the acquisition's sampler. *)
Definition reach (h : list Obj) (c : OptimizerCall) : list loc :=
  match call_surrogateModel c with Some m => [m] | None => [] end ++
  match call_acquisitionFunc c with
  | Some r => acq_locs h r
  | None => []
  end.

(** [h] holds every object of [h0], unchanged. *)
Definition agrees (h0 h : list Obj) : Prop :=
  forall l, (l < length h0)%nat -> h !! l = h0 !! l.

(** An optimizer changes no object but those it can reach, and objects do
    not disappear. *)
Definition optimize_frame : Prop :=
  forall f c h g r h' g',
    optimize f c h g = (r, h', g') ->
    (length h <= length h')%nat /\
    forall l, (l < length h)%nat -> ~ In l (reach h c) -> h' !! l = h !! l.

(** The objects handed to the optimizer at an event. *)
Definition handed_over (e : Event) : list loc :=
  match e with
  | EOptimize c h _ => reach h c
  | _ => []
  end.

(** What an acquisition reference denotes: [None], or an object with its
    class, [maxeval], the [n] of its sampler and its own state. *)
Definition AcqValue : Type := option (AcqClass * option Z * option Z * AcqState).

Definition denotes_acquisition (h : list Obj) (r : PyRef) (v : AcqValue) : Prop :=
  match r, v with
  | None, None => True
  | Some a, Some (cls, me, None, st) => h !! a = Some (OAcq cls me None st)
  | Some a, Some (cls, me, Some n, st) =>
      exists ls, h !! a = Some (OAcq cls me (Some ls) st) /\
                 h !! ls = Some (OSampler n)
  | _, _ => False
  end.

(** Lines 82-85 on the value of the acquisition. *)
Definition configured (maxEval : Z) (nArgs : nat) (v : AcqValue) : AcqValue :=
  match v with
  | None => None
  | Some (cls, me, sn, st) =>
      Some (cls,
            match me with Some _ => Some maxEval | None => None end,
            match sn with
            | Some _ => Some (Z.min (100 * Z.of_nat nArgs) 5000)
            | None => None
            end,
            st)
  end.

(** Lines 73-78 on the integrality of the model. *)
Definition derived_iindex (cls : ModelClass) (ii : list nat) (bounds : Bounds) : list nat :=
  if isinstance_RbfModel cls then integral_indices bounds else ii.

(** Run [i] on copies of a model and an acquisition of given contents: the
    design is drawn after seeding with [i], and the optimizer is called on
    a model that holds those contents and this run's design only, with the
    acquisition of those contents when it is handed over. *)
Definition run_on (f : Objective) (bounds : Bounds) (cls : ModelClass)
    (ii : list nat) (st : ModelState) (v : AcqValue) (i : nat)
    (evs : list Event) : Prop :=
  exists x g m c h r,
    get_slhd_sample (initial_design_size bounds) bounds (seed (Z.of_nat i)) = (x, g) /\
    evs = run_events i bounds x (objf f x) m c h g r /\
    call_surrogateModel c = Some m /\
    h !! m = Some (OModel cls ii (update cls ii st x (objf f x))) /\
    match call_acquisitionFunc c with
    | Some a => denotes_acquisition h a v
    | None => True
    end.

(** Run [i] as the caller configured it: on the caller's model with the
    derived integrality, and the caller's acquisition after lines 82-85. *)
Definition run_as_configured (f : Objective) (maxEval : Z) (bounds : Bounds)
    (cls : ModelClass) (ii : list nat) (st : ModelState) (v : AcqValue)
    (i : nat) (evs : list Event) : Prop :=
  run_on f bounds cls (derived_iindex cls ii bounds) st
         (configured maxEval (length bounds) v) i evs.

(** Run [i] by its budget: the design of [2 * (dimension + 1)] points is
    requested after seeding with [i], the objective is evaluated on the
    design the sampler returned, the model is updated with it, and the
    optimizer is called with what is left of [maxEval]. *)
Definition run_with_budget (f : Objective) (maxEval : Z) (optimizer : Optimizer)
    (bounds : Bounds) (disp : bool) (i : nat) (evs : list Event) : Prop :=
  let n := 2 * (Z.of_nat (length bounds) + 1) in
  exists x g m c h r,
    get_slhd_sample n bounds (seed (Z.of_nat i)) = (x, g) /\
    evs = [ESeed (Z.of_nat i); ESample n bounds; EObjective x;
           EUpdate m x (objf f x); EOptimize c h g; EPrint_x r; EPrint_fx r] /\
    call_optimizer c = optimizer /\
    call_bounds c = bounds /\
    call_surrogateModel c = Some m /\
    call_disp c = disp /\
    call_maxeval c = maxEval - n.

(** [emits P c]: whatever [c] does, it only appends events, all in [P]. *)
Definition emits {A} (P : Event -> Prop) (c : M A) : Prop :=
  forall s, exists evs, trace (snd (c s)) = trace s ++ evs /\ Forall P evs.

(** The calls of one run: the design, the budget left and the keyword
    [acquisitionFunc]. *)
Definition call_as_written (optimizer : Optimizer) (bounds : Bounds)
    (maxEval : Z) (disp : bool) (e : Event) : Prop :=
  match e with
  | ESample n b => n = initial_design_size bounds /\ b = bounds
  | EOptimize c _ _ =>
      call_optimizer c = optimizer /\ call_bounds c = bounds /\
      call_disp c = disp /\
      call_maxeval c = maxEval - initial_design_size bounds /\
      (is_Some (call_acquisitionFunc c) <-> forwards_acquisition optimizer)
  | _ => True
  end.

End DriverSpec.

(** The [algorithms] table, by the classes of its objects: the model, the
    optimizer and the acquisition ([None] where the entry holds [None]). *)
Definition algorithms (name : AlgoName) : ModelClass * Optimizer * option AcqClass :=
  match name with
  | SRS => (RbfModel, multistart_msrs, None)
  | DYCORS => (RbfModel, dycors, None)
  | CPTV => (RbfModel, cptv, None)
  | CPTVl => (RbfModel, cptvl, None)
  | MLSL => (RbfModel, surrogate_optimization, Some MinimizeSurrogate)
  | GP => (GaussianProcess, bayesian_optimization, Some MaximizeEI)
  end.

(** ** The benchmark program

    The rest of vlse_bench.py: the budget table [maxEvals], and the program
    under [if __name__ == "__main__"], which turns the values of [-b] into
    bounds, calls [run_optimizer] and names the file of the results. *)

(** The designs on which the objective is evaluated, in order. *)
Definition designs `{L : Library} (evs : list Event) : list Sample :=
  flat_map (fun e => match e with EObjective x => [x] | _ => [] end) evs.

(** The optimizer call of an event, if it is one, hands over no acquisition
    object: it has no keyword [acquisitionFunc], or [None] for it. *)
Definition passes_no_object `{L : Library} (e : Event) : Prop :=
  match e with
  | EOptimize c _ _ =>
      call_acquisitionFunc c = None \/ call_acquisitionFunc c = Some None
  | _ => True
  end.

Module Benchmark.

Import String.

(** The keys of [myFuncs]. *)
Inductive Problem : Type :=
| branin | hart3 | hart6 | shekel | ackley | levy | powell | michal
| spheref | rastr | mccorm | bukin6 | camel6 | crossit | drop | egg
| griewank | holder | levy13.

Definition problem_key (p : Problem) : String.string :=
  match p with
  | branin => "branin" | hart3 => "hart3" | hart6 => "hart6"
  | shekel => "shekel" | ackley => "ackley" | levy => "levy"
  | powell => "powell" | michal => "michal" | spheref => "spheref"
  | rastr => "rastr" | mccorm => "mccorm" | bukin6 => "bukin6"
  | camel6 => "camel6" | crossit => "crossit" | drop => "drop"
  | egg => "egg" | griewank => "griewank" | holder => "holder"
  | levy13 => "levy13"
  end%string.

Definition algorithm_key (a : AlgoName) : String.string :=
  match a with
  | SRS => "SRS" | DYCORS => "DYCORS" | CPTV => "CPTV"
  | CPTVl => "CPTVl" | MLSL => "MLSL" | GP => "GP"
  end%string.

(** The values of the command line: [-a], [-p], [-n] and [-b], whose
    values are parsed with [type=float]. *)
Record Args : Type := mkArgs {
  algorithm : AlgoName;
  problem : Problem;
  ntrials : Z;
  bounds : option (list Q)
}.

(** Lines 214-220:
    [[args.bounds[2 * i], args.bounds[2 * i + 1]]
       for i in range(len(args.bounds) // 2)], or [None]. *)
Definition process_bounds (b : option (list Q)) : option Bounds :=
  match b with
  | Some v =>
      Some (map (fun i => (PyFloat (nth (2 * i) v 0%Q),
                           PyFloat (nth (2 * i + 1) v 0%Q)))
                (seq 0 (List.length v / 2)))
  | None => None
  end.

(** The values taken two by two, by recursion on the list. *)
Fixpoint pair_up (v : list Q) : Bounds :=
  match v with
  | lo :: hi :: rest => (PyFloat lo, PyFloat hi) :: pair_up rest
  | _ => []
  end.

(** The values of [-b] that give the bounds [ps]. *)
Definition in_order (ps : list (Q * Q)) : list Q :=
  flat_map (fun p => [fst p; snd p]) ps.

(** [bounds] as a condition: [None] and the empty list are false. *)
Definition truthy (b : option Bounds) : bool :=
  match b with
  | Some (_ :: _) => true
  | _ => false
  end.

(** Lines 243-252: the path of the result file. *)
Definition filepath (folder : String.string) (args : Args) : String.string :=
  String.append
    (String.append
       (String.append
          (String.append
             (String.append
                (String.append (String.append folder "/")
                               (problem_key (problem args)))
                "_")
             (algorithm_key (algorithm args)))
          "_")
       (if truthy (process_bounds (bounds args)) then "bounds" else "default"))
    ".pkl"%string.

(** What decides the name of the file. *)
Definition file_key (args : Args) : Problem * AlgoName * bool :=
  (problem args, algorithm args, truthy (process_bounds (bounds args))).

(** The name of the file below the folder, from what decides it. *)
Definition file_name (k : Problem * AlgoName * bool) : String.string :=
  String.append (problem_key (fst (fst k)))
    (String.append "_"
       (String.append (algorithm_key (snd (fst k)))
          (String.append "_"
             (String.append (if snd k then "bounds" else "default") ".pkl"))))%string.

(** Line 241: the folder of the results, below the directory of the
    script. *)
Definition pickle_folder (dir : String.string) : String.string :=
  String.append dir "/pickle".

(** A name below a folder. *)
Definition below (folder name : String.string) : String.string :=
  String.append (String.append folder "/") name.

Definition all_problems : list Problem :=
  [branin; hart3; hart6; shekel; ackley; levy; powell; michal; spheref;
   rastr; mccorm; bukin6; camel6; crossit; drop; egg; griewank; holder;
   levy13].

Definition all_algorithms : list AlgoName := [SRS; DYCORS; CPTV; CPTVl; MLSL; GP].

Definition all_file_keys : list (Problem * AlgoName * bool) :=
  list_prod (list_prod all_problems all_algorithms) [true; false].

(** No two of the keys have the same file name, as a computation. *)
Definition file_names_differ : bool :=
  forallb
    (fun k1 =>
       forallb
         (fun k2 =>
            implb (String.eqb (file_name k1) (file_name k2))
                  (String.eqb (problem_key (fst (fst k1))) (problem_key (fst (fst k2)))
                   && String.eqb (algorithm_key (snd (fst k1)))
                                 (algorithm_key (snd (fst k2)))
                   && Bool.eqb (snd k1) (snd k2)))
         all_file_keys)
    all_file_keys.

Section Program.

Context `{L : Library}.

(** [myFuncs]: the objectives of the [benchmark] module, which is not
    among the sources. *)
Variable myFuncs : Problem -> Objective.

(** Where the objects of the [algorithms] table are: every entry has a
    model, and an acquisition unless the table holds [None]. *)
Variables model_at acquisition_at : AlgoName -> nat.

(** [algorithms[name]] as the driver reads it. *)
Definition algorithm_entry (name : AlgoName) : Algo :=
  mkAlgo (Some (model_at name))
         (snd (fst (algorithms name)))
         (match snd (algorithms name) with
          | Some _ => Some (acquisition_at name)
          | None => None
          end).

(** Line 186: [100 * (len(f.domain()) + 1)]. *)
Definition maxEvals (key : Problem) : Z :=
  100 * (Z.of_nat (List.length (domain (myFuncs key))) + 1).

(** Lines 254-264: the list that is pickled. *)
Record Pickled : Type := mkPickled {
  pickled_dim : nat;
  pickled_maxEvals : Z;
  pickled_ntrials : Z;
  pickled_optres : list OptimizeResult;
  pickled_time : Q;
  pickled_bounds : option Bounds
}.

(** Lines 213-264. First the four parameters are printed; then the
    optimization is run between two readings [t0] and [tf] of the clock;
    when it returns, and only then, the folder is made and the file
    written: the result is its path and its content. *)
Definition main (folder : String.string) (args : Args) (t0 tf : Q)
    : (AlgoName * Problem * option Bounds * Z) * M (String.string * Pickled) :=
  let bounds := process_bounds (bounds args) in
  ((algorithm args, problem args, bounds, ntrials args),
   bind (run_optimizer (myFuncs (problem args)) (maxEvals (problem args))
           (algorithm_entry (algorithm args)) (ntrials args) bounds true)
        (fun optres =>
           ret (filepath folder args,
                mkPickled (List.length (domain (myFuncs (problem args))))
                          (maxEvals (problem args)) (ntrials args) optres
                          (tf - t0)%Q bounds))).

End Program.

End Benchmark.

(** ** CycleSearch *)

Module CycleSearch.

Local Open Scope Q_scope.

Definition point : Type := list Q.

(** The part of the [Surrogate] interface the acquisition reads: the
    evaluated points, their values, the integral coordinates, and
    [__call__] on a batch of points. *)
Record Surrogate : Type := mkSurrogate {
  X : list point;
  Y : list Q;
  iindex : list nat;
  call : list point -> list Q
}.

Fixpoint sumQ (l : list Q) : Q :=
  match l with
  | [] => 0
  | x :: l' => x + sumQ l'
  end.

(** tests/test_acquisition.py, [MockSurrogateModel]: the prediction is the
    sum of the coordinates of each row. *)
Definition MockSurrogateModel (X_train : list point) (Y_train : list Q) : Surrogate :=
  mkSurrogate X_train Y_train [] (fun x => map sumQ x).

(** tests/test_acquisition.py, [MockEvaluabilitySurrogate]: 1.0 for every
    row but the first of the batch, which gets 0.1. *)
Definition MockEvaluabilitySurrogate (X_train : list point) (Y_train : list Q) : Surrogate :=
  mkSurrogate X_train Y_train []
    (fun x => match x with
              | [] => []
              | _ :: rest => (1 # 10) :: map (fun _ => 1) rest
              end).

(** [bounds[j] = (low, high)]. *)
Definition QBounds : Type := list (Q * Q).

Definition Qmin' (a b : Q) : Q := if Qle_bool a b then a else b.
Definition Qmax' (a b : Q) : Q := if Qle_bool a b then b else a.

(** [np.clip(x, low, high)]. *)
Definition clip (x low high : Q) : Q := Qmin' (Qmax' x low) high.

(** Rounding to the nearest integer, halves to even as numpy rounds. *)
Definition round (x : Q) : Q :=
  let f := Qfloor x in
  let r := x - inject_Z f in
  if Qle_bool r (1 # 2)
  then (if Qeq_bool r (1 # 2)
        then (if Z.even f then inject_Z f else inject_Z (f + 1))
        else inject_Z f)
  else inject_Z (f + 1).

Definition memb (j : nat) (l : list nat) : bool := existsb (Nat.eqb j) l.

(** Modelled from the spec: the random numbers one call of
    [generate_candidates] draws, which soogo/acquisition.py (not among the
    sources) takes from numpy. For candidate [k]: the evaluated point it
    perturbs, the perturbation of coordinate [j], and the uniform draw of
    coordinate [j] in the unit interval. *)
Record Draws : Type := mkDraws {
  pick : nat -> nat;
  step : nat -> nat -> Q;
  unif : nat -> nat -> Q
}.

(** The Euclidean distance needs a square root, which the rationals do not
    have: the root is a parameter. *)
Class Sqrt : Type := sqrtQ : Q -> Q.

(** Modelled from the spec: the [CycleSearch] object of
    soogo/acquisition.py, which is not among the sources. It holds the
    acceptance threshold of the evaluability filter and the number [nCand]
    of candidates of each kind; section 4.4 names both and gives neither a
    value. *)
Record CycleSearch : Type := mkCycleSearch {
  threshold : Q;
  nCand_optimize : nat
}.

Fixpoint mapi_from {A B} (j : nat) (f : nat -> A -> B) (l : list A) : list B :=
  match l with
  | [] => []
  | a :: l' => f j a :: mapi_from (S j) f l'
  end.

(** Modelled from the spec: a raw coordinate made admissible, rounded when
    the coordinate is integral, then clipped to its bounds (section 4.4:
    all candidates are clipped and rounded to respect bounds and
    integrality). *)
Definition admissible (ii : list nat) (j : nat) (b : Q * Q) (x : Q) : Q :=
  clip (if memb j ii then round x else x) (fst b) (snd b).

(** Modelled from the spec: candidate [k] of the local phase, an evaluated
    point with every coordinate perturbed. [None] stands for the exception
    when there is no evaluated point or its dimension is not that of the
    bounds. *)
Definition perturbed (d : Draws) (s : Surrogate) (bounds : QBounds) (k : nat) : option point :=
  match X s with
  | [] => None
  | x0 :: _ =>
      let base := nth (pick d k mod length (X s)) (X s) x0 in
      if Nat.eqb (length base) (length bounds)
      then Some (mapi_from 0
                   (fun j b => admissible (iindex s) j b (nth j base 0 + step d k j))
                   bounds)
      else None
  end.

(** Modelled from the spec: candidate [k] of the global phase, uniform
    over the box. *)
Definition uniform (d : Draws) (s : Surrogate) (bounds : QBounds) (k : nat) : point :=
  mapi_from 0
    (fun j b => admissible (iindex s) j b (fst b + unif d k j * (snd b - fst b)))
    bounds.

Fixpoint sequence {A} (l : list (option A)) : option (list A) :=
  match l with
  | [] => Some []
  | None :: _ => None
  | Some a :: l' =>
      match sequence l' with
      | Some r => Some (a :: r)
      | None => None
      end
  end.

(** Modelled from the spec: [CycleSearch.generate_candidates] of
    soogo/acquisition.py, which is not among the sources. Section 4.4:
    [nCand] candidates by local perturbation of evaluated points, each
    coordinate perturbed and clipped, and [nCand] by uniform sampling of
    the box; all rounded and clipped to respect integrality and bounds. *)
Definition generate_candidates (d : Draws) (s : Surrogate) (bounds : QBounds)
    (nCand : nat) : option (list point) :=
  match sequence (map (perturbed d s bounds) (seq 0 nCand)) with
  | Some local => Some (local ++ map (uniform d s bounds) (seq 0 nCand))
  | None => None
  end.

(** *** Scoring *)

Fixpoint sq_dist (a b : point) : Q :=
  match a, b with
  | x :: a', y :: b' => (x - y) * (x - y) + sq_dist a' b'
  | _, _ => 0
  end.

Definition dist `{Sqrt} (a b : point) : Q := sqrtQ (sq_dist a b).

Fixpoint minimum (d : Q) (l : list Q) : Q :=
  match l with
  | [] => d
  | x :: l' => minimum (Qmin' d x) l'
  end.

Fixpoint maximum (d : Q) (l : list Q) : Q :=
  match l with
  | [] => d
  | x :: l' => maximum (Qmax' d x) l'
  end.

(** Modelled from the spec: the distance from [c] to the nearest evaluated
    point; there is none without an evaluated point. *)
Definition min_dist `{Sqrt} (Xs : list point) (c : point) : option Q :=
  match Xs with
  | [] => None
  | x :: Xs' => Some (minimum (dist c x) (map (dist c) Xs'))
  end.

(** Modelled from the spec: min-max scaling to the unit interval; a signal
    with no range maps to the constant 1/2. *)
Definition scale (lo hi y : Q) : Q :=
  if Qeq_bool hi lo then 1 # 2 else (y - lo) / (hi - lo).

Definition normalize (v : list Q) : list Q :=
  match v with
  | [] => []
  | x :: v' => map (scale (minimum x v') (maximum x v')) v
  end.

(** A surviving candidate with its signals. [idx] is its row in the
    candidate array. *)
Record Row : Type := mkRow {
  idx : nat;
  pt : point;
  value : Q;
  distance : Q;
  nvalue : Q;
  ndist : Q;
  score : Q
}.

(** Modelled from the spec: [a] is selected before [b] when it has a
    higher score; on equal scores when it is the farther one; on equal
    distances too when it has the lower value. *)
Definition better (a b : Row) : bool :=
  if Qeq_bool (score a) (score b)
  then (if Qeq_bool (ndist a) (ndist b)
        then negb (Qle_bool (nvalue b) (nvalue a))
        else negb (Qle_bool (ndist a) (ndist b)))
  else negb (Qle_bool (score a) (score b)).

(** Stable insertion sort, best first: rows that [better] does not
    separate keep the order of the candidate array. *)
Fixpoint insert (x : Row) (l : list Row) : list Row :=
  match l with
  | [] => [x]
  | y :: l' => if better y x then y :: insert x l' else x :: l
  end.

Fixpoint sort (l : list Row) : list Row :=
  match l with
  | [] => []
  | x :: l' => insert x (sort l')
  end.

Fixpoint zip_rows (w : Q) (ps : list (nat * point)) (vs ds nvs nds : list Q) : list Row :=
  match ps, vs, ds, nvs, nds with
  | (i, p) :: ps', v :: vs', d :: ds', nv :: nvs', nd :: nds' =>
      mkRow i p v d nv nd (w * nd + (1 - w) * (1 - nv))
      :: zip_rows w ps' vs' ds' nvs' nds'
  | _, _, _, _, _ => []
  end.

Fixpoint indexed_from {A} (i : nat) (l : list A) : list (nat * A) :=
  match l with
  | [] => []
  | a :: l' => (i, a) :: indexed_from (S i) l'
  end.

(** Modelled from the spec: the candidates the evaluability filter keeps,
    with their rows. The surrogate is called on the whole candidate array,
    and a candidate is discarded when its score is below the threshold.
    [None] when the surrogate does not return one score per candidate. *)
Definition survivors (cs : CycleSearch) (candidates : list point)
    (evaluabilitySurrogate : option Surrogate) : option (list (nat * point)) :=
  match evaluabilitySurrogate with
  | None => Some (indexed_from 0 candidates)
  | Some ev =>
      let scores := call ev candidates in
      if Nat.eqb (length scores) (length candidates)
      then Some (map fst
                   (List.filter (fun pe => Qle_bool (threshold cs) (snd pe))
                      (combine (indexed_from 0 candidates) scores)))
      else None
  end.

(** Modelled from the spec: the surviving candidates with both signals,
    raw and normalized, and the composite score. *)
Definition scored `{Sqrt} (cs : CycleSearch) (surrogate : Surrogate)
    (candidates : list point) (scoreWeight : Q)
    (evaluabilitySurrogate : option Surrogate) : option (list Row) :=
  match survivors cs candidates evaluabilitySurrogate with
  | None => None
  | Some ps =>
      let vs := call surrogate (map snd ps) in
      match sequence (map (fun p => min_dist (X surrogate) (snd p)) ps) with
      | None => None
      | Some ds =>
          if Nat.eqb (length vs) (length ps)
          then Some (zip_rows scoreWeight ps vs ds (normalize vs) (normalize ds))
          else None
      end
  end.

Definition selected `{Sqrt} (cs : CycleSearch) (surrogate : Surrogate)
    (candidates : list point) (n : nat) (scoreWeight : Q)
    (evaluabilitySurrogate : option Surrogate) : option (list Row) :=
  match scored cs surrogate candidates scoreWeight evaluabilitySurrogate with
  | None => None
  | Some rows => Some (firstn n (sort rows))
  end.

(** Modelled from the spec: [CycleSearch.select_candidates] of
    soogo/acquisition.py, which is not among the sources. Section 4.4:
    discard the candidates whose evaluability score is below the threshold;
    for the others take the predicted value and the distance to the nearest
    evaluated point, normalize each over the survivors, score
    [scoreWeight * distance + (1 - scoreWeight) * (1 - value)] and return
    the [n] of highest score, ties broken by distance, then by value. The
    bounds play no part in the selection. *)
Definition select_candidates `{Sqrt} (cs : CycleSearch) (surrogate : Surrogate)
    (candidates : list point) (bounds : QBounds) (n : nat) (scoreWeight : Q)
    (evaluabilitySurrogate : option Surrogate) : option (list point) :=
  match selected cs surrogate candidates n scoreWeight evaluabilitySurrogate with
  | None => None
  | Some rows => Some (map pt rows)
  end.

(** Modelled from the spec: the [nCand] that [optimize] passes to
    [generate_candidates]. Section 4.4 has [optimize] select [n] of the
    [2 * nCand] candidates and return [n] rows (items 2 and 3), so the pool
    never holds fewer than the rows asked for: it is the [nCand] of the
    object, and [n] when that is larger. *)
Definition pool_size (cs : CycleSearch) (n : nat) : nat :=
  Nat.max (nCand_optimize cs) n.

(** Modelled from the spec: [CycleSearch.optimize] of soogo/acquisition.py,
    which is not among the sources. Section 4.4: candidates from
    [generate_candidates], then [select_candidates] without an evaluability
    surrogate, which returns [n] of them. *)
Definition optimize `{Sqrt} (cs : CycleSearch) (d : Draws) (surrogate : Surrogate)
    (bounds : QBounds) (n : nat) (scoreWeight : Q) : option (list point) :=
  match generate_candidates d surrogate bounds (pool_size cs n) with
  | None => None
  | Some candidates =>
      select_candidates cs surrogate candidates bounds n scoreWeight None
  end.

(** [b] comes before [a], as a statement on the three keys. *)
Definition precedes (b a : Row) : Prop :=
  score a < score b \/
  (score b == score a /\
   (ndist a < ndist b \/ (ndist b == ndist a /\ nvalue b < nvalue a))).



(** A row as [scored] builds it, for the ranges [lov..hiv] of the values
    and [lod..hid] of the distances. *)
Definition row_of (w lov hiv lod hid : Q) (r : Row) : Prop :=
  nvalue r = scale lov hiv (value r) /\
  ndist r = scale lod hid (distance r) /\
  score r = w * ndist r + (1 - w) * (1 - nvalue r) /\
  (lov <= value r /\ value r <= hiv) /\
  (lod <= distance r /\ distance r <= hid).

(** Every coordinate within its bounds, and as many coordinates as
    bounds. *)
Definition in_bounds (bounds : QBounds) (p : point) : Prop :=
  Forall2 (fun b x => fst b <= x /\ x <= snd b) bounds p.

Definition valid_bounds (bounds : QBounds) : Prop :=
  Forall (fun b => fst b < snd b) bounds.

End CycleSearch.

(** ** A concrete set of collaborators

    Small stand-ins on which the driver runs inside Rocq: samples are lists
    of rational points, a surrogate's state is its training set, the random
    state is a counter. The optimizer overwrites what it was given, as a
    real one may. *)

Module Demo.

#[export] Instance collaborators : Collaborators := {|
  Sample := list (list Q);
  Values := list Q;
  ModelState := list (list Q) * list Q;
  AcqState := unit;
  OptimizeResult := Z;
  Rng := Z
|}.

Definition sum_coordinates (x : list (list Q)) : list Q :=
  map CycleSearch.sumQ x.

Definition demo_optimize (f : Objective) (c : OptimizerCall) (h : list Obj) (g : Z)
    : Z * list Obj * Z :=
  let h1 := match call_surrogateModel c with
            | Some m => <[m := OModel GaussianProcess [] ([], [])]> h
            | None => h
            end in
  let h2 := match call_acquisitionFunc c with
            | Some (Some a) => <[a := OAcq OtherAcquisition (Some 0) None tt]> h1
            | _ => h1
            end in
  (call_maxeval c, h2, g + 7).

#[export] Instance library : Library := {|
  seed i := i;
  get_slhd_sample n b g :=
    (repeat (map (fun lh => num_value (fst lh)) b) (Z.to_nat n), g + 1);
  update cls ii st x y := (fst st ++ x, snd st ++ y);
  optimize := demo_optimize
|}.

(** An objective over the unit square of two continuous coordinates. *)
Definition objective : Objective :=
  mkObjective [(PyFloat 0, PyFloat 1); (PyFloat 0, PyFloat 1)] sum_coordinates.

(** The objects of an MLSL-like entry: an RBF model, and an acquisition
    with a [maxeval] and a sampler. *)
Definition heap0 : list Obj :=
  [OModel RbfModel [7%nat] ([], []);
   OSampler 3;
   OAcq MinimizeSurrogate (Some 9) (Some 1%nat) tt].

Definition mlsl : Algo := mkAlgo (Some 0%nat) surrogate_optimization (Some 2%nat).

Definition cptv_algo : Algo := mkAlgo (Some 0%nat) cptv (Some 2%nat).

Definition state0 : State := mkState heap0 0 [].

(** For CycleSearch: draws that walk through the evaluated points, step by
    [k - 1] and spread over the unit interval; an acquisition that asks
    for one candidate of each kind and accepts scores from 1/2 on. The
    identity stands in for the square root where only the number of
    candidates or the order of the distances matters. *)
Definition draws : CycleSearch.Draws :=
  CycleSearch.mkDraws
    (fun k => k)
    (fun k j => (inject_Z (Z.of_nat k) - 1)%Q)
    (fun k j => 1 # Pos.of_nat (S (k + j))).

Definition small_pool : CycleSearch.CycleSearch :=
  CycleSearch.mkCycleSearch (1 # 2) 1.

Definition identity_root : CycleSearch.Sqrt := fun x => x.

(** The third scenario of [test_select_candidates]. *)
Definition X_train : list CycleSearch.point := [[5; 5]; [6; 6]; [3; 4]]%Q.
Definition Y_train : list Q := [0; 1; 1 # 2]%Q.
Definition candidates : list CycleSearch.point := [[0; 0]; [2; 6]; [7; 1 # 2]]%Q.
Definition box : CycleSearch.QBounds := [(0, 10); (0, 10)]%Q.

(** Its first scenario: one evaluated point, two survivors of equal
    value. *)
Definition X_train1 : list CycleSearch.point := [[5; 5]]%Q.
Definition Y_train1 : list Q := [0]%Q.
Definition candidates1 : list CycleSearch.point := [[0; 0]; [9; 1]; [4; 6]]%Q.

(** The rows of the first scenario, and the selection of one of them. *)
Definition rows1 : list CycleSearch.Row :=
  Eval vm_compute in
    match @CycleSearch.scored identity_root small_pool
            (CycleSearch.MockSurrogateModel X_train1 Y_train1) candidates1 (1 # 2)
            (Some (CycleSearch.MockEvaluabilitySurrogate X_train1 Y_train1))
    with
    | Some rows => rows
    | None => []
    end.

Definition selection1 : list CycleSearch.Row :=
  Eval vm_compute in firstn 1 (CycleSearch.sort rows1).



(** An entry without a model. *)
Definition no_model : Algo := mkAlgo None cptv (Some 2%nat).

(** For the program: every problem is the objective above, and the objects
    of every entry of the table are those of [heap0]. *)
Definition demo_funcs (p : Benchmark.Problem) : Objective := objective.

Definition demo_model_at (a : AlgoName) : nat := 0%nat.

Definition demo_acquisition_at (a : AlgoName) : nat := 2%nat.

Definition demo_folder : String.string :=
  Benchmark.pickle_folder String.EmptyString.

(** [-a MLSL -p branin -n 2 -b 0 1 0 1], and the same with [-b 0 1]. *)
Definition two_pairs : Benchmark.Args :=
  Benchmark.mkArgs MLSL Benchmark.branin 2 (Some [0; 1; 0; 1]%Q).

Definition one_pair : Benchmark.Args :=
  Benchmark.mkArgs MLSL Benchmark.branin 2 (Some [0; 1]%Q).

(** What the first of them pickles, between the clock readings 3 and 5. *)
Definition written : Benchmark.Pickled :=
  Benchmark.mkPickled 2 300 2 ([294; 294] : list Z) (5 - 3)%Q
    (Some [(PyFloat 0, PyFloat 1); (PyFloat 0, PyFloat 1)]).

End Demo.

(** * The driver *)

Section DriverTheory.

Context `{L : Library}.

(** Running one step of a [bind] whose first action is known. *)
Lemma bind_inr {A B} (c : M A) (k : A -> M B) s a s' :
  c s = (inr a, s') -> bind c k s = k a s'.
Proof. intros H. unfold bind. now rewrite H. Qed.

Lemma bind_inl {A B} (c : M A) (k : A -> M B) s e s' :
  c s = (inl e, s') -> bind c k s = (inl e, s').
Proof. intros H. unfold bind. now rewrite H. Qed.

Lemma bind_inv {A B} (c : M A) (k : A -> M B) s b s' :
  bind c k s = (inr b, s') ->
  exists a s1, c s = (inr a, s1) /\ k a s1 = (inr b, s').
Proof.
  unfold bind. destruct (c s) as [[e | a] s1]; intros H.
  - discriminate.
  - now exists a, s1.
Qed.

(** ** What an action adds to the trace *)

Lemma emits_ret {A} P (a : A) : emits P (ret a).
Proof. intros s. exists []. simpl. now rewrite app_nil_r. Qed.

Lemma emits_raise {A} P e : emits P (raise e : M A).
Proof. intros s. exists []. simpl. now rewrite app_nil_r. Qed.

Lemma emits_bind {A B} P (c : M A) (k : A -> M B) :
  emits P c -> (forall a, emits P (k a)) -> emits P (bind c k).
Proof.
  intros Hc Hk s. unfold bind.
  destruct (Hc s) as (e1 & E1 & F1).
  destruct (c s) as [[e | a] s1]; simpl in *.
  - now exists e1.
  - destruct (Hk a s1) as (e2 & E2 & F2).
    exists (e1 ++ e2). split.
    + now rewrite E2, E1, app_assoc.
    + now apply Forall_app.
Qed.

Lemma emits_emit P e : P e -> emits P (emit e).
Proof. intros H s. exists [e]. simpl. split; [reflexivity | now constructor]. Qed.

Lemma emits_read P l : emits P (read l).
Proof.
  intros s. exists []. unfold read.
  destruct (heap s !! l); simpl; now rewrite app_nil_r.
Qed.

Lemma emits_write P l o : emits P (write l o).
Proof. intros s. exists []. simpl. now rewrite app_nil_r. Qed.

Lemma emits_alloc P o : emits P (alloc o).
Proof. intros s. exists []. simpl. now rewrite app_nil_r. Qed.

Lemma emits_assert P b : emits P (assert b).
Proof. destruct b; [apply emits_ret | apply emits_raise]. Qed.

Lemma emits_deepcopy P l : emits P (deepcopy l).
Proof.
  unfold deepcopy. apply emits_bind; [apply emits_read |].
  intros [cls ii st | cls me [ls |] st | n]; try apply emits_alloc.
  apply emits_bind; [apply emits_read |].
  intros [| |]; intros; try apply emits_raise.
  apply emits_bind; [apply emits_alloc | intros; apply emits_alloc].
Qed.

Lemma emits_deepcopy_ref P r : emits P (deepcopy_ref r).
Proof.
  destruct r as [l |]; simpl; [| apply emits_ret].
  apply emits_bind; [apply emits_deepcopy | intros; apply emits_ret].
Qed.

Lemma emits_init_model P algo bounds : emits P (init_model algo bounds).
Proof.
  unfold init_model. apply emits_bind; [apply emits_deepcopy_ref |].
  intros [m |]; [| apply emits_ret].
  apply emits_bind; [apply emits_read |].
  intros [cls ii st | |]; intros; try apply emits_ret.
  apply emits_bind; [| intros; apply emits_ret].
  destruct (isinstance_RbfModel cls); [apply emits_write | apply emits_ret].
Qed.

Lemma emits_init_acquisition P algo maxEval nArgs :
  emits P (init_acquisition algo maxEval nArgs).
Proof.
  unfold init_acquisition. apply emits_bind; [apply emits_deepcopy_ref |].
  intros [a |]; [| apply emits_ret].
  apply emits_bind; [apply emits_read |].
  intros [| cls me sm st |]; intros; try apply emits_ret.
  apply emits_bind; [apply emits_write |]. intros _.
  apply emits_bind; [| intros; apply emits_ret].
  destruct sm as [ls |]; [| apply emits_ret].
  apply emits_bind; [apply emits_read |].
  intros [| |]; intros; try apply emits_raise. apply emits_write.
Qed.

Lemma emits_mapM {A B} P (f : A -> M B) l :
  (forall a, emits P (f a)) -> emits P (mapM f l).
Proof.
  intros Hf. induction l as [| a l IH]; simpl; [apply emits_ret |].
  apply emits_bind; [apply Hf |]. intros b.
  apply emits_bind; [apply IH | intros; apply emits_ret].
Qed.

Lemma forwards_acquisition_spec o :
  Optimizer_eqb o surrogate_optimization || Optimizer_eqb o dycors = true
  <-> forwards_acquisition o.
Proof.
  unfold forwards_acquisition.
  destruct o; simpl; split; intros H; try discriminate; auto;
    destruct H; discriminate.
Qed.

Lemma emits_run_once f maxEval optimizer bounds disp model acq i :
  emits (call_as_written optimizer bounds maxEval disp)
        (run_once f maxEval optimizer bounds disp model acq i).
Proof.
  unfold run_once.
  apply emits_bind.
  { intros s. exists [ESeed (Z.of_nat i)]. simpl. split; [easy | now constructor]. }
  intros _. apply emits_bind.
  { intros s. unfold draw_sample.
    destruct (get_slhd_sample _ _ _) as [x g]. simpl.
    eexists. split; [reflexivity |]. constructor; [| constructor].
    simpl. now unfold initial_design_size. }
  intros x. apply emits_bind.
  { unfold eval_objective. apply emits_bind; [now apply emits_emit |].
    intros; apply emits_ret. }
  intros y. apply emits_bind; [apply emits_deepcopy_ref |].
  intros modelIter. apply emits_bind.
  { unfold model_update. destruct modelIter as [m |]; [| apply emits_raise].
    apply emits_bind; [apply emits_read |].
    intros [| |]; intros; try apply emits_raise.
    apply emits_bind; [now apply emits_emit | intros; apply emits_write]. }
  intros _. apply emits_bind.
  - pose proof (forwards_acquisition_spec optimizer) as Hfw.
    destruct (Optimizer_eqb optimizer surrogate_optimization
              || Optimizer_eqb optimizer dycors).
    + apply emits_bind; [apply emits_deepcopy_ref |].
      intros a s. unfold call_optimize.
      destruct (optimize _ _ _ _) as [[r h] g]. simpl.
      eexists. split; [reflexivity |]. constructor; [| constructor].
      simpl. unfold initial_design_size. repeat split; auto.
      intros _. now apply Hfw.
    + intros s. unfold call_optimize.
      destruct (optimize _ _ _ _) as [[r h] g]. simpl.
      eexists. split; [reflexivity |]. constructor; [| constructor].
      simpl. unfold initial_design_size. repeat split; auto.
      * intros [? H]. discriminate.
      * intros H. apply Hfw in H. discriminate.
  - intros r. apply emits_bind; [now apply emits_emit |].
    intros _. apply emits_bind; [now apply emits_emit | intros; apply emits_ret].
Qed.

Lemma emits_run_optimizer f maxEval algo nRuns bounds disp :
  emits (call_as_written (algo_optimizer algo) (bounds_of f bounds) maxEval disp)
        (run_optimizer f maxEval algo nRuns bounds disp).
Proof.
  unfold run_optimizer. fold (bounds_of f bounds).
  apply emits_bind; [apply emits_assert |]. intros _.
  apply emits_bind; [apply emits_init_model |]. intros model.
  apply emits_bind; [apply emits_init_acquisition |]. intros acq.
  apply emits_mapM. intros i. apply emits_run_once.
Qed.

(** ** A run that returns *)

(** Case analysis on the innermost scrutinee, until none is left. *)
Ltac split_matches :=
  repeat match goal with
         | |- context [match ?x with _ => _ end] =>
             lazymatch x with
             | context [match _ with _ => _ end] => fail
             | _ => destruct x eqn:?
             end
         end.

Lemma deepcopy_ref_quiet r s r' s1 :
  deepcopy_ref r s = (inr r', s1) -> trace s1 = trace s /\ rng s1 = rng s.
Proof.
  destruct r as [l |]; simpl;
    unfold bind, deepcopy, bind, read, alloc, raise, ret;
    split_matches; intros H; inversion H; auto.
Qed.

Lemma model_update_inv model x y s u s1 :
  model_update model x y s = (inr u, s1) ->
  exists m, model = Some m /\ trace s1 = trace s ++ [EUpdate m x y] /\
            rng s1 = rng s.
Proof.
  destruct model as [m |]; simpl; [| discriminate].
  unfold bind, read, emit, write, raise.
  split_matches; intros H; inversion H. now exists m.
Qed.

Lemma call_optimize_inv f c s r s1 :
  call_optimize f c s = (inr r, s1) ->
  trace s1 = trace s ++ [EOptimize c (heap s) (rng s)].
Proof.
  unfold call_optimize. destruct (optimize _ _ _ _) as [[r0 h] g].
  intros H. now inversion H.
Qed.

Lemma run_once_inv f maxEval optimizer bounds disp model acq i s r s' :
  run_once f maxEval optimizer bounds disp model acq i s = (inr r, s') ->
  exists evs, trace s' = trace s ++ evs /\
              run_with_budget f maxEval optimizer bounds disp i evs.
Proof.
  unfold run_once. intros H.
  apply bind_inv in H as (u1 & s1 & H1 & H). unfold set_seed in H1.
  inversion H1; subst u1 s1; clear H1.
  apply bind_inv in H as (x & s2 & H2 & H). unfold draw_sample in H2.
  simpl in H2.
  destruct (get_slhd_sample (2 * (Z.of_nat (length bounds) + 1)) bounds
              (seed (Z.of_nat i))) as [x0 g] eqn:Hsample.
  inversion H2; subst x0 s2; clear H2.
  apply bind_inv in H as (y & s3 & H3 & H).
  unfold eval_objective, bind, emit, ret in H3. inversion H3; subst y s3; clear H3.
  apply bind_inv in H as (mi & s4 & H4 & H).
  apply deepcopy_ref_quiet in H4 as [T4 R4]. simpl in T4, R4.
  apply bind_inv in H as (u5 & s5 & H5 & H).
  apply model_update_inv in H5 as (m & -> & T5 & R5).
  apply bind_inv in H as (res & s6 & H6 & H).
  unfold bind, emit, ret in H. simpl in H. inversion H; subst res s'; clear H.
  simpl.
  assert (exists c h, trace s6 = trace s5 ++ [EOptimize c h g] /\
                    call_optimizer c = optimizer /\ call_bounds c = bounds /\
                    call_surrogateModel c = Some m /\ call_disp c = disp /\
                    call_maxeval c = maxEval - 2 * (Z.of_nat (length bounds) + 1))
    as (c & h & T6 & Hc).
  { destruct (Optimizer_eqb optimizer surrogate_optimization
              || Optimizer_eqb optimizer dycors).
    - apply bind_inv in H6 as (a & s7 & H7 & H6).
      apply deepcopy_ref_quiet in H7 as [T7 R7].
      apply call_optimize_inv in H6.
      eexists _, (heap s7). split.
      { rewrite H6, T7. do 3 f_equal. congruence. }
      now repeat split.
    - apply call_optimize_inv in H6.
      eexists _, (heap s5). split.
      { rewrite H6. do 3 f_equal. congruence. }
      now repeat split. }
  eexists. split.
  - rewrite T6, T5, T4. rewrite <- !app_assoc. reflexivity.
  - exists x, g, m, c, h, r. simpl. now rewrite Hsample.
Qed.

Lemma emits_nothing {A} (c : M A) s :
  emits (fun _ => False) c -> trace (snd (c s)) = trace s.
Proof.
  intros H. destruct (H s) as (evs & E & F).
  destruct F as [| e evs []]. now rewrite app_nil_r in E.
Qed.

Lemma runs_inv f maxEval optimizer bounds disp model acq n :
  forall k s rs s',
    mapM (run_once f maxEval optimizer bounds disp model acq) (seq k n) s
      = (inr rs, s') ->
    exists runs,
      trace s' = trace s ++ concat runs /\
      Forall2 (run_with_budget f maxEval optimizer bounds disp) (seq k n) runs /\
      length rs = n.
Proof.
  induction n as [| n IH]; intros k s rs s' H; simpl in H.
  - inversion H; subst. exists []. simpl. now rewrite app_nil_r.
  - apply bind_inv in H as (r & s1 & H1 & H).
    apply bind_inv in H as (rs' & s2 & H2 & H).
    inversion H; subst rs s'; clear H.
    apply run_once_inv in H1 as (evs & T1 & B1).
    apply IH in H2 as (runs & T2 & B2 & L2).
    exists (evs :: runs). simpl. repeat split.
    + now rewrite T2, T1, <- app_assoc.
    + now constructor.
    + now rewrite L2.
Qed.

(** C6. Whatever [run_optimizer] does, every design it requests is of
    exactly [2 * (dimension + 1)] points over the bounds and every optimizer
    call has the budget [maxEval - 2 * (dimension + 1)]. When it returns,
    its events are those of [nRuns] runs, one after the other, and in run
    [i] the design is requested after seeding with [i], the objective is
    evaluated on the design the sampler returned, and the optimizer is
    called with that budget. *)
Theorem run_optimizer_initial_design f maxEval algo nRuns bounds disp s :
  (exists evs,
     trace (snd (run_optimizer f maxEval algo nRuns bounds disp s))
       = trace s ++ evs /\
     Forall (fun e =>
               match e with
               | ESample n b =>
                   n = 2 * (Z.of_nat (length (bounds_of f bounds)) + 1) /\
                   b = bounds_of f bounds
               | EOptimize c _ _ =>
                   call_maxeval c
                   = maxEval - 2 * (Z.of_nat (length (bounds_of f bounds)) + 1)
               | _ => True
               end) evs) /\
  (forall rs s',
     run_optimizer f maxEval algo nRuns bounds disp s = (inr rs, s') ->
     exists runs,
       trace s' = trace s ++ concat runs /\
       length rs = Z.to_nat nRuns /\
       Forall2 (run_with_budget f maxEval (algo_optimizer algo)
                  (bounds_of f bounds) disp)
               (seq 0 (Z.to_nat nRuns)) runs).
Proof.
  split.
  - destruct (emits_run_optimizer f maxEval algo nRuns bounds disp s)
      as (evs & E & F).
    exists evs. split; [exact E |].
    eapply List.Forall_impl; [| exact F].
    intros [| | | | c h g | |]; simpl; auto.
    intros (_ & _ & _ & H & _). exact H.
  - intros rs s'. unfold run_optimizer. fold (bounds_of f bounds). intros H.
    apply bind_inv in H as (u & s1 & H1 & H).
    apply bind_inv in H as (model & s2 & H2 & H).
    apply bind_inv in H as (acq & s3 & H3 & H).
    apply runs_inv in H as (runs & T & B & Len).
    exists runs. repeat split; try assumption.
    rewrite T. f_equal.
    pose proof (emits_nothing _ s
                  (emits_assert _ (Nat.eqb (length (bounds_of f bounds))
                                           (length (domain f))))) as E1.
    pose proof (emits_nothing _ s1
                  (emits_init_model _ algo (bounds_of f bounds))) as E2.
    pose proof (emits_nothing _ s2
                  (emits_init_acquisition _ algo maxEval
                     (length (bounds_of f bounds)))) as E3.
    rewrite H1 in E1. rewrite H2 in E2. rewrite H3 in E3. simpl in *. congruence.
Qed.

(** C8, as the code has it. Bounds whose number of dimensions is not that
    of the objective's domain fail the assertion of line 69: the call
    raises at once, with no object copied, no event and no second
    attempt. *)
Theorem run_optimizer_dimension_mismatch f maxEval algo nRuns bounds disp s :
  length bounds <> length (domain f) ->
  run_optimizer f maxEval algo nRuns (Some bounds) disp s
    = (inl AssertionError, s).
Proof.
  intros H. unfold run_optimizer.
  apply Nat.eqb_neq in H. cbv zeta. now rewrite H.
Qed.

(** C10. Whatever [run_optimizer] does, every optimizer call it makes is
    given the keyword [acquisitionFunc] when the optimizer is
    [surrogate_optimization] or [dycors], and is not given it for any other
    optimizer; the optimizers of the table's SRS, CPTV, CPTVl and GP entries
    are such others, so the [MaximizeEI] of the GP entry is never handed
    over. *)
Theorem acquisition_forwarded_to_two_optimizers f maxEval algo nRuns bounds disp s :
  (exists evs,
     trace (snd (run_optimizer f maxEval algo nRuns bounds disp s))
       = trace s ++ evs /\
     Forall (fun e =>
               match e with
               | EOptimize c _ _ =>
                   call_optimizer c = algo_optimizer algo /\
                   (is_Some (call_acquisitionFunc c)
                    <-> algo_optimizer algo = surrogate_optimization
                        \/ algo_optimizer algo = dycors)
               | _ => True
               end) evs) /\
  Forall (fun name =>
            snd (fst (algorithms name)) <> surrogate_optimization /\
            snd (fst (algorithms name)) <> dycors)
         [SRS; CPTV; CPTVl; GP] /\
  algorithms GP = (GaussianProcess, bayesian_optimization, Some MaximizeEI).
Proof.
  split; [| split; [| reflexivity]].
  - destruct (emits_run_optimizer f maxEval algo nRuns bounds disp s)
      as (evs & E & F).
    exists evs. split; [exact E |].
    eapply List.Forall_impl; [| exact F].
    intros [| | | | c h g | |]; simpl; auto.
    intros (H1 & _ & _ & _ & H2). split; assumption.
  - repeat constructor; simpl; discriminate.
Qed.

(** ** Running the copies *)

Lemma lookup_fresh (h : list Obj) (o : Obj) (rest : list Obj) :
  (h ++ o :: rest) !! length h = Some o.
Proof. now apply list_lookup_middle. Qed.

Lemma insert_fresh (h : list Obj) (o o' : Obj) (rest : list Obj) :
  <[length h := o']> (h ++ o :: rest) = h ++ o' :: rest.
Proof.
  rewrite insert_app_r_alt by lia. now rewrite Nat.sub_diag.
Qed.

Lemma agrees_refl (h : list Obj) : agrees h h.
Proof. now intros l Hl. Qed.

Lemma agrees_app (h0 h new : list Obj) : agrees h0 h -> agrees h0 (h ++ new).
Proof.
  intros H l Hl. rewrite lookup_app_l; [now apply H |].
  apply lookup_lt_is_Some. rewrite (H l Hl). now apply lookup_lt_is_Some.
Qed.

Lemma agrees_length (h0 h : list Obj) : agrees h0 h -> (length h0 <= length h)%nat.
Proof.
  intros H. destruct (length h0) as [| n] eqn:E; [lia |].
  assert (Hn : (n < length h0)%nat) by lia.
  pose proof (H n Hn) as Hl.
  assert (is_Some (h !! n)) as Hs.
  { rewrite Hl. now apply lookup_lt_is_Some. }
  apply lookup_lt_is_Some in Hs. lia.
Qed.

Lemma agrees_trans (h0 h1 h2 : list Obj) :
  agrees h0 h1 -> agrees h1 h2 -> agrees h0 h2.
Proof.
  intros H01 H12 l Hl. rewrite H12, H01; auto.
  pose proof (agrees_length _ _ H01). lia.
Qed.

Lemma agrees_lookup (h0 h : list Obj) l o :
  agrees h0 h -> h0 !! l = Some o -> h !! l = Some o.
Proof.
  intros H Hl. rewrite H; [assumption |]. now apply lookup_lt_Some in Hl.
Qed.

Lemma denotes_acquisition_agrees h0 h r v :
  agrees h0 h -> denotes_acquisition h0 r v -> denotes_acquisition h r v.
Proof.
  intros Ha. unfold denotes_acquisition.
  destruct r as [a |], v as [[[[cls me] [n |]] st] |]; auto.
  - intros (ls & H1 & H2). exists ls. split; eapply agrees_lookup; eauto.
  - intros H1. eapply agrees_lookup; eauto.
Qed.

Lemma deepcopy_model s m cls ii st :
  heap s !! m = Some (OModel cls ii st) ->
  deepcopy_ref (Some m) s =
    (inr (Some (length (heap s))),
     mkState (heap s ++ [OModel cls ii st]) (rng s) (trace s)).
Proof.
  intros H. simpl. unfold bind, deepcopy, bind, read. now rewrite H.
Qed.

Lemma deepcopy_sampled s a cls me ls st n :
  heap s !! a = Some (OAcq cls me (Some ls) st) ->
  heap s !! ls = Some (OSampler n) ->
  deepcopy_ref (Some a) s =
    (inr (Some (S (length (heap s)))),
     mkState (heap s ++ [OSampler n; OAcq cls me (Some (length (heap s))) st])
             (rng s) (trace s)).
Proof.
  intros H1 H2. simpl. unfold bind, deepcopy, bind, read. rewrite H1, H2. simpl.
  unfold alloc. simpl. rewrite length_app. simpl.
  replace (length (heap s) + 1)%nat with (S (length (heap s))) by lia.
  now rewrite <- app_assoc.
Qed.

Lemma deepcopy_plain s a cls me st :
  heap s !! a = Some (OAcq cls me None st) ->
  deepcopy_ref (Some a) s =
    (inr (Some (length (heap s))),
     mkState (heap s ++ [OAcq cls me None st]) (rng s) (trace s)).
Proof.
  intros H1. simpl. unfold bind, deepcopy, bind, read. now rewrite H1.
Qed.

Lemma lookup_fresh_next (h : list Obj) (o1 o2 : Obj) :
  (h ++ [o1; o2]) !! S (length h) = Some o2.
Proof.
  rewrite lookup_app_r by lia.
  now replace (S (length h) - length h)%nat with 1%nat by lia.
Qed.

Lemma insert_fresh_next (h : list Obj) (o1 o2 o : Obj) :
  <[S (length h) := o]> (h ++ [o1; o2]) = h ++ [o1; o].
Proof.
  rewrite insert_app_r_alt by lia.
  now replace (S (length h) - length h)%nat with 1%nat by lia.
Qed.

(** A deep copy denotes what the original denotes and lives in new
    objects only. *)
Lemma deepcopy_acquisition s r v :
  denotes_acquisition (heap s) r v ->
  exists r' new,
    deepcopy_ref r s = (inr r', mkState (heap s ++ new) (rng s) (trace s)) /\
    denotes_acquisition (heap s ++ new) r' v /\
    List.NoDup (acq_locs (heap s ++ new) r') /\
    forall l, In l (acq_locs (heap s ++ new) r') ->
              (length (heap s) <= l < length (heap s ++ new))%nat.
Proof.
  unfold denotes_acquisition.
  destruct r as [a |], v as [[[[cls me] [n |]] st] |]; try contradiction.
  - intros (ls & H1 & H2).
    exists (Some (S (length (heap s)))),
           [OSampler n; OAcq cls me (Some (length (heap s))) st].
    split; [| split; [| split]].
    + now apply deepcopy_sampled with (ls := ls).
    + exists (length (heap s)). split; [apply lookup_fresh_next | apply lookup_fresh].
    + simpl. rewrite lookup_fresh_next.
      constructor; [simpl; lia |].
      constructor; [simpl; tauto | constructor].
    + simpl. rewrite lookup_fresh_next. rewrite length_app. simpl.
      intros l [<- | [<- | []]]; lia.
  - intros H1. exists (Some (length (heap s))), [OAcq cls me None st].
    split; [| split; [| split]].
    + now apply deepcopy_plain.
    + apply lookup_fresh.
    + simpl. rewrite lookup_fresh.
      constructor; [simpl; tauto | constructor].
    + simpl. rewrite lookup_fresh, length_app. simpl. intros l [<- | []]. lia.
  - intros _. exists None, []. simpl. rewrite app_nil_r.
    split; [now destruct s | split; [exact I | split; [constructor | tauto]]].
Qed.

Lemma init_model_run algo bounds s m cls ii st :
  algo_model algo = Some m ->
  heap s !! m = Some (OModel cls ii st) ->
  init_model algo bounds s =
    (inr (Some (length (heap s))),
     mkState (heap s ++ [OModel cls (derived_iindex cls ii bounds) st])
             (rng s) (trace s)).
Proof.
  intros Hm H. unfold init_model. rewrite Hm.
  rewrite (bind_inr _ _ _ _ _ (deepcopy_model s m cls ii st H)).
  unfold bind, read. simpl. rewrite lookup_fresh.
  unfold derived_iindex. destruct (isinstance_RbfModel cls); simpl.
  - now rewrite insert_fresh.
  - reflexivity.
Qed.

Lemma init_acquisition_run algo maxEval nArgs s v :
  denotes_acquisition (heap s) (algo_acquisition algo) v ->
  exists r new,
    init_acquisition algo maxEval nArgs s =
      (inr r, mkState (heap s ++ new) (rng s) (trace s)) /\
    denotes_acquisition (heap s ++ new) r (configured maxEval nArgs v).
Proof.
  unfold denotes_acquisition, init_acquisition, configured.
  destruct (algo_acquisition algo) as [a |], v as [[[[cls me] [n |]] st] |];
    try contradiction.
  - intros (ls & H1 & H2).
    rewrite (bind_inr _ _ _ _ _ (deepcopy_sampled s a cls me ls st n H1 H2)).
    eexists (Some (S (length (heap s)))), _.
    unfold bind, read, write. simpl.
    rewrite lookup_fresh_next. simpl. rewrite insert_fresh_next.
    rewrite lookup_fresh. simpl. rewrite insert_fresh.
    split; [reflexivity |].
    exists (length (heap s)). split; [apply lookup_fresh_next | apply lookup_fresh].
  - intros H1.
    rewrite (bind_inr _ _ _ _ _ (deepcopy_plain s a cls me st H1)).
    eexists (Some (length (heap s))), _.
    unfold bind, read, write. simpl.
    rewrite lookup_fresh. simpl. rewrite insert_fresh.
    split; [reflexivity | apply lookup_fresh].
  - intros _. exists None, []. simpl. unfold bind, ret. simpl.
    rewrite app_nil_r. split; [now destruct s | exact I].
Qed.

(** ** One run *)

Section Runs.

Hypothesis frame : optimize_frame.

Variables (f : Objective) (maxEval : Z) (optimizer : Optimizer)
  (bounds : Bounds) (disp : bool).

(** The working copies that lines 72-85 leave: the model at [m0], the
    acquisition [acq], in a heap [h0]. *)
Variables (h0 : list Obj) (m0 : nat) (acq : PyRef)
  (cls : ModelClass) (ii : list nat) (st : ModelState) (v : AcqValue).

Hypothesis model_copy : h0 !! m0 = Some (OModel cls ii st).
Hypothesis acquisition_copy : denotes_acquisition h0 acq v.

Lemma frame_agrees fo c h g r h' g' base :
  optimize fo c h g = (r, h', g') ->
  (base <= length h)%nat ->
  (forall l, In l (reach h c) -> (base <= l)%nat) ->
  forall l, (l < base)%nat -> h' !! l = h !! l.
Proof.
  intros Hopt Hb Hreach l Hl.
  destruct (frame _ _ _ _ _ _ _ Hopt) as [_ Hsame].
  apply Hsame; [lia |]. intros Hin. apply Hreach in Hin. lia.
Qed.

(** A run on a heap that still holds the working copies: it returns, and
    the optimizer is called on new objects that hold the working copies'
    contents and this run's design. *)
Lemma run_once_run i s :
  agrees h0 (heap s) ->
  exists r s' x g c h,
    run_once f maxEval optimizer bounds disp (Some m0) acq i s = (inr r, s') /\
    get_slhd_sample (initial_design_size bounds) bounds (seed (Z.of_nat i)) = (x, g) /\
    trace s' = trace s ++ run_events i bounds x (objf f x) (length (heap s)) c h g r /\
    call_surrogateModel c = Some (length (heap s)) /\
    h !! length (heap s) = Some (OModel cls ii (update cls ii st x (objf f x))) /\
    match call_acquisitionFunc c with
    | Some a => denotes_acquisition h a v
    | None => True
    end /\
    agrees (heap s) (heap s') /\
    List.NoDup (reach h c) /\
    (forall l, In l (reach h c) -> (length (heap s) <= l < length (heap s'))%nat).
Proof.
  intros Hag. unfold run_once.
  unfold bind at 1. unfold set_seed at 1.
  unfold bind at 1. unfold draw_sample at 1. simpl.
  fold (initial_design_size bounds).
  destruct (get_slhd_sample (initial_design_size bounds) bounds (seed (Z.of_nat i)))
    as [x g] eqn:Hsample.
  unfold bind at 1. unfold eval_objective at 1, bind at 1, emit at 1, ret at 1.
  simpl.
  set (s3 := mkState (heap s) g
               (((trace s ++ [ESeed (Z.of_nat i)])
                 ++ [ESample (initial_design_size bounds) bounds]) ++ [EObjective x])).
  assert (Hm0 : heap s3 !! m0 = Some (OModel cls ii st)).
  { simpl. eapply agrees_lookup; eauto. }
  rewrite (bind_inr _ _ _ _ _ (deepcopy_model s3 m0 cls ii st Hm0)).
  unfold bind at 1. unfold model_update, bind, read, emit, write. simpl.
  rewrite lookup_fresh. simpl. rewrite insert_fresh.
  set (M := OModel cls ii (update cls ii st x (objf f x))).
  set (len := length (heap s)).
  destruct (Optimizer_eqb optimizer surrogate_optimization
            || Optimizer_eqb optimizer dycors).
  - set (s5 := mkState (heap s ++ [M]) g
                 ((((trace s ++ [ESeed (Z.of_nat i)])
                    ++ [ESample (initial_design_size bounds) bounds])
                   ++ [EObjective x]) ++ [EUpdate len x (objf f x)])).
    assert (Hden : denotes_acquisition (heap s5) acq v).
    { simpl. eapply denotes_acquisition_agrees; [| exact acquisition_copy].
      now apply agrees_app. }
    destruct (deepcopy_acquisition s5 acq v Hden)
      as (r' & new & Hcopy & Hden' & Hnd & Hloc).
    rewrite Hcopy. unfold call_optimize. simpl.
    set (c := mkCall optimizer bounds
                (maxEval - initial_design_size bounds) (Some len) (Some r') disp).
    set (h := (heap s ++ [M]) ++ new) in *.
    destruct (optimize f c h g) as [[r h'] g'] eqn:Hopt. simpl.
    assert (Hlenh : (len < length h)%nat).
    { unfold h, len. rewrite !length_app. simpl. lia. }
    assert (Hreach : forall l, In l (reach h c) -> (len <= l < length h)%nat).
    { unfold reach. simpl. intros l [<- | Hin]; [lia |].
      apply Hloc in Hin. simpl in Hin. fold h in Hin.
      rewrite length_app in Hin. simpl in Hin. fold len in Hin. lia. }
    destruct (frame _ _ _ _ _ _ _ Hopt) as [Hgrow _].
    eexists r, _, x, g, c, h.
    split; [reflexivity |]. repeat split.
    + simpl. unfold run_events. now rewrite <- !app_assoc.
    + unfold h. rewrite <- app_assoc. apply lookup_fresh.
    + exact Hden'.
    + simpl. intros l Hl.
      rewrite (frame_agrees _ _ _ _ _ _ _ len Hopt); try lia.
      * unfold h. rewrite <- app_assoc. now apply lookup_app_l.
      * intros l' Hl'. apply Hreach in Hl'. lia.
    + unfold reach. simpl. constructor; [| exact Hnd].
      intros Hin. apply Hloc in Hin. simpl in Hin. rewrite length_app in Hin.
      simpl in Hin. fold len in Hin. lia.
    + apply Hreach in H. lia.
    + apply Hreach in H. simpl. lia.
  - unfold call_optimize. simpl.
    set (c := mkCall optimizer bounds
                (maxEval - initial_design_size bounds) (Some len) None disp).
    set (h := heap s ++ [M]).
    destruct (optimize f c h g) as [[r h'] g'] eqn:Hopt. simpl.
    assert (Hlenh : (len < length h)%nat).
    { unfold h, len. rewrite !length_app. simpl. lia. }
    assert (Hreach : forall l, In l (reach h c) -> (len <= l < length h)%nat).
    { unfold reach. simpl. intros l [<- | []]. lia. }
    destruct (frame _ _ _ _ _ _ _ Hopt) as [Hgrow _].
    eexists r, _, x, g, c, h.
    split; [reflexivity |]. repeat split.
    + simpl. unfold run_events. now rewrite <- !app_assoc.
    + apply lookup_fresh.
    + simpl. intros l Hl.
      rewrite (frame_agrees _ _ _ _ _ _ _ len Hopt); try lia.
      * now apply lookup_app_l.
      * intros l' Hl'. apply Hreach in Hl'. lia.
    + unfold reach. simpl. constructor; [simpl; tauto | constructor].
    + apply Hreach in H. lia.
    + apply Hreach in H. simpl. lia.
Qed.

(** The loop: every run returns, on objects of its own. *)
Lemma runs_run n : forall k s,
  agrees h0 (heap s) ->
  exists rs s' runs,
    mapM (run_once f maxEval optimizer bounds disp (Some m0) acq) (seq k n) s
      = (inr rs, s') /\
    length rs = n /\
    agrees (heap s) (heap s') /\
    trace s' = trace s ++ concat runs /\
    Forall2 (run_on f bounds cls ii st v) (seq k n) runs /\
    List.NoDup (flat_map handed_over (concat runs)) /\
    (forall l, In l (flat_map handed_over (concat runs)) ->
               (length (heap s) <= l < length (heap s'))%nat).
Proof.
  induction n as [| n IH]; intros k s Hag.
  - exists [], s, []. simpl. rewrite app_nil_r.
    repeat split; try constructor; try apply agrees_refl; contradiction.
  - destruct (run_once_run k s Hag)
      as (r & s1 & x & g & c & h & Hrun & Hsample & Htr & Hm & Hh & Hacq
          & Hag1 & Hnd & Hloc).
    assert (Hag01 : agrees h0 (heap s1)) by (eapply agrees_trans; eauto).
    destruct (IH (S k) s1 Hag01)
      as (rs & s' & runs & Hruns & Hlen & Hag2 & Htr2 & Hall & Hnd2 & Hloc2).
    exists (r :: rs), s',
      (run_events k bounds x (objf f x) (length (heap s)) c h g r :: runs).
    pose proof (agrees_length _ _ Hag1) as Hl1.
    pose proof (agrees_length _ _ Hag2) as Hl2.
    assert (Hflat : flat_map handed_over
                      (concat (run_events k bounds x (objf f x)
                                 (length (heap s)) c h g r :: runs))
                    = reach h c ++ flat_map handed_over (concat runs)).
    { reflexivity. }
    repeat split.
    + simpl. rewrite (bind_inr _ _ _ _ _ Hrun), (bind_inr _ _ _ _ _ Hruns).
      reflexivity.
    + simpl. now rewrite Hlen.
    + eapply agrees_trans; eauto.
    + rewrite Htr2, Htr. simpl. now rewrite <- !app_assoc.
    + constructor; [| exact Hall].
      exists x, g, (length (heap s)), c, h, r. repeat split; assumption.
    + rewrite Hflat. apply List.NoDup_app; try assumption.
      intros l Hin1 Hin2. apply Hloc in Hin1. apply Hloc2 in Hin2. lia.
    + rewrite Hflat in H. apply in_app_or in H as [H | H].
      * apply Hloc in H. lia.
      * apply Hloc2 in H. lia.
    + rewrite Hflat in H. apply in_app_or in H as [H | H].
      * apply Hloc in H. lia.
      * apply Hloc2 in H. lia.
Qed.

End Runs.

(** ** The whole of [run_optimizer] *)

(** On a caller's model and acquisition, and bounds of the objective's
    dimension, the driver returns one result per run; the caller's heap is
    as it was; run [i] is as configured; the objects handed to the
    optimizer are new and no two runs get the same. *)
Lemma run_optimizer_runs f maxEval algo nRuns bounds disp s m cls ii st v :
  optimize_frame ->
  length (bounds_of f bounds) = length (domain f) ->
  algo_model algo = Some m ->
  heap s !! m = Some (OModel cls ii st) ->
  denotes_acquisition (heap s) (algo_acquisition algo) v ->
  exists rs s' runs,
    run_optimizer f maxEval algo nRuns bounds disp s = (inr rs, s') /\
    length rs = Z.to_nat nRuns /\
    agrees (heap s) (heap s') /\
    trace s' = trace s ++ concat runs /\
    Forall2 (run_as_configured f maxEval (bounds_of f bounds) cls ii st v)
            (seq 0 (Z.to_nat nRuns)) runs /\
    List.NoDup (flat_map handed_over (concat runs)) /\
    (forall l, In l (flat_map handed_over (concat runs)) ->
               (length (heap s) <= l < length (heap s'))%nat).
Proof.
  intros Hframe Hdim Hm Hmodel Hacq.
  unfold run_optimizer. fold (bounds_of f bounds).
  set (b := bounds_of f bounds) in *.
  assert (Heq : Nat.eqb (length b) (length (domain f)) = true)
    by now apply Nat.eqb_eq.
  cbv zeta. rewrite Heq. unfold assert. unfold bind at 1, ret at 1.
  rewrite (bind_inr _ _ _ _ _ (init_model_run algo b s m cls ii st Hm Hmodel)).
  set (s1 := mkState (heap s ++ [OModel cls (derived_iindex cls ii b) st])
               (rng s) (trace s)).
  assert (Hacq1 : denotes_acquisition (heap s1) (algo_acquisition algo) v).
  { simpl. eapply denotes_acquisition_agrees; [| exact Hacq].
    apply agrees_app, agrees_refl. }
  destruct (init_acquisition_run algo maxEval (length b) s1 v Hacq1)
    as (acq & new & Hinit & Hden).
  rewrite (bind_inr _ _ _ _ _ Hinit).
  set (s2 := mkState (heap s1 ++ new) (rng s1) (trace s1)) in *.
  assert (Hcopy : heap s2 !! length (heap s)
                  = Some (OModel cls (derived_iindex cls ii b) st)).
  { simpl. rewrite <- app_assoc. apply lookup_fresh. }
  destruct (runs_run Hframe f maxEval (algo_optimizer algo) b disp (heap s2)
              (length (heap s)) acq cls (derived_iindex cls ii b) st
              (configured maxEval (length b) v) Hcopy Hden
              (Z.to_nat nRuns) 0%nat s2 (agrees_refl _))
    as (rs & s' & runs & Hruns & Hlen & Hag & Htr & Hall & Hnd & Hloc).
  exists rs, s', runs.
  assert (Hag0 : agrees (heap s) (heap s2)).
  { simpl. apply agrees_app, agrees_app, agrees_refl. }
  pose proof (agrees_length _ _ Hag0) as Hl0.
  repeat split; try assumption.
  - eapply agrees_trans; eauto.
  - apply Hloc in H. lia.
  - apply Hloc in H. lia.
Qed.

Lemma integral_indices_spec (bounds : Bounds) i :
  In i (integral_indices bounds) <->
  exists lo hi, bounds !! i = Some (lo, hi) /\
                isinstance_int lo = true /\ isinstance_int hi = true.
Proof.
  unfold integral_indices. rewrite filter_In. split.
  - intros [_ H]. destruct (bounds !! i) as [[lo hi] |]; [| discriminate].
    apply andb_true_iff in H. now exists lo, hi.
  - intros (lo & hi & Hl & H1 & H2). split.
    + apply in_seq. apply lookup_lt_Some in Hl. lia.
    + now rewrite Hl, H1, H2.
Qed.

(** C9. With an optimizer that changes only what it can reach, a run on
    the caller's model and acquisition returns; every object of the
    caller's heap is as it was; run [i] starts from the caller's
    configuration and its own design, whatever the runs before it did; the
    objects handed to the optimizers are all different and none is the
    caller's. *)
Theorem runs_share_no_object f maxEval algo nRuns bounds disp s m cls ii st v :
  optimize_frame ->
  length (bounds_of f bounds) = length (domain f) ->
  algo_model algo = Some m ->
  heap s !! m = Some (OModel cls ii st) ->
  denotes_acquisition (heap s) (algo_acquisition algo) v ->
  exists rs s' runs,
    run_optimizer f maxEval algo nRuns bounds disp s = (inr rs, s') /\
    length rs = Z.to_nat nRuns /\
    (forall l, (l < length (heap s))%nat -> heap s' !! l = heap s !! l) /\
    trace s' = trace s ++ concat runs /\
    Forall2 (run_as_configured f maxEval (bounds_of f bounds) cls ii st v)
            (seq 0 (Z.to_nat nRuns)) runs /\
    List.NoDup (flat_map handed_over (concat runs)) /\
    Forall (fun l => (length (heap s) <= l)%nat)
           (flat_map handed_over (concat runs)).
Proof.
  intros Hframe Hdim Hm Hmodel Hacq.
  destruct (run_optimizer_runs f maxEval algo nRuns bounds disp s m cls ii st v
              Hframe Hdim Hm Hmodel Hacq)
    as (rs & s' & runs & Hrun & Hlen & Hag & Htr & Hall & Hnd & Hloc).
  exists rs, s', runs. repeat split; try assumption.
  apply List.Forall_forall. intros l Hl. apply Hloc in Hl. lia.
Qed.

(** C7, as the code has it. In every run the optimizer receives a model of
    the caller's class whose integral coordinates are, for an [RbfModel],
    exactly the dimensions whose two bounds are Python ints (whatever
    [iindex] the caller's model had), and for any other model those of the
    caller's model; the caller's model keeps its own. *)
Theorem integrality_from_int_bounds f maxEval algo nRuns bounds disp s m cls ii st v :
  optimize_frame ->
  length (bounds_of f bounds) = length (domain f) ->
  algo_model algo = Some m ->
  heap s !! m = Some (OModel cls ii st) ->
  denotes_acquisition (heap s) (algo_acquisition algo) v ->
  exists rs s' runs,
    run_optimizer f maxEval algo nRuns bounds disp s = (inr rs, s') /\
    trace s' = trace s ++ concat runs /\
    length runs = Z.to_nat nRuns /\
    heap s' !! m = Some (OModel cls ii st) /\
    Forall (fun evs =>
              exists x y m' c h g r ii' st' k,
                evs = run_events k (bounds_of f bounds) x y m' c h g r /\
                call_surrogateModel c = Some m' /\
                h !! m' = Some (OModel cls ii' st') /\
                forall i,
                  In i ii' <->
                  if isinstance_RbfModel cls
                  then exists lo hi,
                         bounds_of f bounds !! i = Some (lo, hi) /\
                         isinstance_int lo = true /\ isinstance_int hi = true
                  else In i ii)
           runs.
Proof.
  intros Hframe Hdim Hm Hmodel Hacq.
  destruct (run_optimizer_runs f maxEval algo nRuns bounds disp s m cls ii st v
              Hframe Hdim Hm Hmodel Hacq)
    as (rs & s' & runs & Hrun & Hlen & Hag & Htr & Hall & Hnd & Hloc).
  exists rs, s', runs. repeat split; try assumption.
  - apply Forall2_length in Hall. rewrite length_seq in Hall. now symmetry.
  - eapply agrees_lookup; eauto.
  - clear - Hall. induction Hall as [| k evs ks runs Hk _ IH]; constructor; auto.
    destruct Hk as (x & g & m' & c & h & r & _ & Hevs & Hc & Hh & _).
    exists x, (objf f x), m', c, h, g, r. eexists _, _, k.
    repeat split; try eassumption.
    + unfold derived_iindex.
      destruct (isinstance_RbfModel cls); [apply integral_indices_spec | auto].
    + unfold derived_iindex.
      destruct (isinstance_RbfModel cls); [apply integral_indices_spec | auto].
Qed.

End DriverTheory.

(** * More on the driver *)

Section DriverEdges.

Context `{L : Library}.

Lemma run_optimizer_returns f maxEval algo nRuns bounds disp s rs s' :
  run_optimizer f maxEval algo nRuns bounds disp s = (inr rs, s') ->
  exists runs,
    trace s' = trace s ++ concat runs /\
    Forall2 (run_with_budget f maxEval (algo_optimizer algo)
               (bounds_of f bounds) disp)
            (seq 0 (Z.to_nat nRuns)) runs.
Proof.
  unfold run_optimizer. fold (bounds_of f bounds). intros H.
  apply bind_inv in H as (u & s1 & H1 & H).
  apply bind_inv in H as (model & s2 & H2 & H).
  apply bind_inv in H as (acq & s3 & H3 & H).
  apply runs_inv in H as (runs & T & B & _).
  exists runs. split; [| exact B].
  rewrite T. f_equal.
  pose proof (emits_nothing _ s
                (emits_assert _ (Nat.eqb (length (bounds_of f bounds))
                                         (length (domain f))))) as E1.
  pose proof (emits_nothing _ s1
                (emits_init_model _ algo (bounds_of f bounds))) as E2.
  pose proof (emits_nothing _ s2
                (emits_init_acquisition _ algo maxEval
                   (length (bounds_of f bounds)))) as E3.
  rewrite H1 in E1. rewrite H2 in E2. rewrite H3 in E3. simpl in *. congruence.
Qed.

Lemma designs_app evs1 evs2 : designs (evs1 ++ evs2) = designs evs1 ++ designs evs2.
Proof. unfold designs. apply flat_map_app. Qed.

Lemma designs_of_runs f maxEval optimizer bounds disp ks runs :
  Forall2 (run_with_budget f maxEval optimizer bounds disp) ks runs ->
  designs (concat runs)
  = map (fun i => fst (get_slhd_sample (2 * (Z.of_nat (length bounds) + 1))
                         bounds (seed (Z.of_nat i)))) ks.
Proof.
  induction 1 as [| k evs ks runs Hk _ IH]; [reflexivity |].
  simpl. rewrite designs_app, IH. f_equal.
  destruct Hk as (x & g & m & c & h & r & Hs & -> & _).
  simpl in Hs. rewrite Hs. reflexivity.
Qed.

(** X2. When [run_optimizer] returns, the objective has been evaluated on
    one design per run, and the design of run [i] is the one the sampler
    gives right after seeding with [i]: it depends on the bounds and on [i]
    only, not on the algorithm, the budget, the random state at the call or
    what the optimizers of earlier runs did. *)
Theorem designs_depend_on_seed_only f maxEval algo nRuns bounds disp s rs s' :
  run_optimizer f maxEval algo nRuns bounds disp s = (inr rs, s') ->
  exists evs,
    trace s' = trace s ++ evs /\
    designs evs
    = map (fun i =>
             fst (get_slhd_sample
                    (2 * (Z.of_nat (length (bounds_of f bounds)) + 1))
                    (bounds_of f bounds) (seed (Z.of_nat i))))
          (seq 0 (Z.to_nat nRuns)).
Proof.
  intros H. apply run_optimizer_returns in H as (runs & T & B).
  exists (concat runs). split; [exact T |].
  eapply designs_of_runs; eauto.
Qed.

(** X1. With [nRuns <= 0] and a well-formed configuration the driver
    returns the empty list: it draws no sample, evaluates nothing, leaves
    the random state alone, and only adds its working copies to the heap. *)
Theorem no_runs f maxEval algo nRuns bounds disp s m cls ii st v :
  nRuns <= 0 ->
  length (bounds_of f bounds) = length (domain f) ->
  algo_model algo = Some m ->
  heap s !! m = Some (OModel cls ii st) ->
  denotes_acquisition (heap s) (algo_acquisition algo) v ->
  exists copies,
    run_optimizer f maxEval algo nRuns bounds disp s
    = (inr [], mkState (heap s ++ copies) (rng s) (trace s)).
Proof.
  intros Hn Hdim Hm Hmodel Hacq.
  unfold run_optimizer. fold (bounds_of f bounds).
  set (b := bounds_of f bounds) in *.
  assert (Heq : Nat.eqb (length b) (length (domain f)) = true)
    by now apply Nat.eqb_eq.
  cbv zeta. rewrite Heq. unfold assert. unfold bind at 1, ret at 1.
  rewrite (bind_inr _ _ _ _ _ (init_model_run algo b s m cls ii st Hm Hmodel)).
  set (s1 := mkState (heap s ++ [OModel cls (derived_iindex cls ii b) st])
               (rng s) (trace s)).
  assert (Hacq1 : denotes_acquisition (heap s1) (algo_acquisition algo) v).
  { simpl. eapply denotes_acquisition_agrees; [| exact Hacq].
    apply agrees_app, agrees_refl. }
  destruct (init_acquisition_run algo maxEval (length b) s1 v Hacq1)
    as (acq & new & Hinit & _).
  rewrite (bind_inr _ _ _ _ _ Hinit).
  replace (Z.to_nat nRuns) with 0%nat by lia. simpl. unfold ret.
  exists ([OModel cls (derived_iindex cls ii b) st] ++ new).
  now rewrite app_assoc.
Qed.

(** X3. A configuration whose model is [None] is not refused at the start:
    with at least one run, the first design is drawn and the objective
    evaluated on it, and only then does [modelIter.update] raise
    [AttributeError]. No optimizer is called. *)
Theorem missing_model_fails_after_evaluation f maxEval algo nRuns bounds disp s v :
  0 < nRuns ->
  length (bounds_of f bounds) = length (domain f) ->
  algo_model algo = None ->
  denotes_acquisition (heap s) (algo_acquisition algo) v ->
  exists x g copies,
    get_slhd_sample (2 * (Z.of_nat (length (bounds_of f bounds)) + 1))
      (bounds_of f bounds) (seed 0) = (x, g) /\
    run_optimizer f maxEval algo nRuns bounds disp s
    = (inl AttributeError,
       mkState (heap s ++ copies) g
         (trace s ++ [ESeed 0;
                      ESample (2 * (Z.of_nat (length (bounds_of f bounds)) + 1))
                              (bounds_of f bounds);
                      EObjective x])).
Proof.
  intros Hn Hdim Hm Hacq.
  unfold run_optimizer. fold (bounds_of f bounds).
  set (b := bounds_of f bounds) in *.
  assert (Heq : Nat.eqb (length b) (length (domain f)) = true)
    by now apply Nat.eqb_eq.
  cbv zeta. rewrite Heq. unfold assert. unfold bind at 1, ret at 1.
  unfold init_model. rewrite Hm. simpl deepcopy_ref.
  unfold bind at 2. unfold ret at 1. unfold bind at 1. unfold ret at 1.
  destruct (init_acquisition_run algo maxEval (length b) s v Hacq)
    as (acq & new & Hinit & _).
  rewrite (bind_inr _ _ _ _ _ Hinit).
  destruct (Z.to_nat nRuns) as [| n] eqn:En; [lia |].
  simpl seq. simpl mapM.
  destruct (get_slhd_sample (2 * (Z.of_nat (length b) + 1)) b (seed 0))
    as [x g] eqn:Hsample.
  exists x, g, new. split; [reflexivity |].
  assert (Hs : get_slhd_sample (2 * (Z.of_nat (length b) + 1)) b
                 (seed (Z.of_nat 0)) = (x, g)) by exact Hsample.
  unfold bind at 1. unfold run_once.
  unfold bind at 1. unfold set_seed at 1.
  unfold bind at 1. unfold draw_sample at 1. cbn [rng heap trace].
  rewrite Hs.
  unfold eval_objective, bind, emit, ret, raise. cbn.
  now rewrite <- !app_assoc.
Qed.

(** ** What the driver never touches *)

Lemma agrees_insert (h0 h : list Obj) l o :
  (length h0 <= l)%nat -> agrees h0 h -> agrees h0 (<[l := o]> h).
Proof.
  intros Hl Hag l' Hl'. rewrite list_lookup_insert_ne by lia. now apply Hag.
Qed.

(** A deep copy, whatever comes of it: the heap is only extended, and what
    the copy refers to is new. *)
Lemma deepcopy_ref_outcome r s res s1 :
  deepcopy_ref r s = (res, s1) ->
  agrees (heap s) (heap s1) /\
  forall r', res = inr r' ->
             forall l, In l (acq_locs (heap s1) r') -> (length (heap s) <= l)%nat.
Proof.
  destruct r as [l0 |]; simpl.
  - unfold bind, deepcopy, bind, read.
    destruct (heap s !! l0) as [o |] eqn:E0.
    + destruct o as [cls ii st | cls me [ls |] st | n].
      * intros H. inversion H; subst; clear H. simpl. split.
        { apply agrees_app, agrees_refl. }
        intros r' Hr' l. inversion Hr'; subst. simpl.
        rewrite lookup_fresh. intros [<- | []]. lia.
      * destruct (heap s !! ls) as [sm |] eqn:E1.
        { destruct sm as [| | n]; simpl.
          - intros H. inversion H; subst. split; [apply agrees_refl | discriminate].
          - intros H. inversion H; subst. split; [apply agrees_refl | discriminate].
          - unfold alloc. simpl. intros H. inversion H; subst; clear H. simpl. split.
            + apply agrees_app, agrees_app, agrees_refl.
            + intros r' Hr' l. inversion Hr'; subst. simpl.
              rewrite length_app. simpl.
              replace (length (heap s) + 1)%nat with (S (length (heap s))) by lia.
              rewrite <- app_assoc. simpl. rewrite lookup_fresh_next.
              intros [<- | [<- | []]]; lia. }
        { intros H. inversion H; subst. split; [apply agrees_refl | discriminate]. }
      * intros H. inversion H; subst; clear H. simpl. split.
        { apply agrees_app, agrees_refl. }
        intros r' Hr' l. inversion Hr'; subst. simpl.
        rewrite lookup_fresh. intros [<- | []]. lia.
      * intros H. inversion H; subst; clear H. simpl. split.
        { apply agrees_app, agrees_refl. }
        intros r' Hr' l. inversion Hr'; subst. simpl.
        rewrite lookup_fresh. intros [<- | []]. lia.
    + intros H. inversion H; subst. split; [apply agrees_refl | discriminate].
  - intros H. inversion H; subst. split; [apply agrees_refl |].
    intros r' Hr'. inversion Hr'; subst. simpl. tauto.
Qed.

Lemma init_model_agrees algo bounds s :
  agrees (heap s) (heap (snd (init_model algo bounds s))).
Proof.
  unfold init_model, bind.
  destruct (deepcopy_ref (algo_model algo) s) as [[e | [m |]] s1] eqn:E;
    destruct (deepcopy_ref_outcome _ _ _ _ E) as [Hag Hfresh]; simpl; auto.
  assert (Hm : (length (heap s) <= m)%nat).
  { apply (Hfresh (Some m) eq_refl). simpl. now left. }
  unfold read. destruct (heap s1 !! m) as [[cls ii st | |] |]; simpl; auto.
  destruct (isinstance_RbfModel cls); simpl; auto.
  now apply agrees_insert.
Qed.

Lemma init_acquisition_agrees algo maxEval nArgs s :
  agrees (heap s) (heap (snd (init_acquisition algo maxEval nArgs s))).
Proof.
  unfold init_acquisition, bind.
  destruct (deepcopy_ref (algo_acquisition algo) s) as [[e | [a |]] s1] eqn:E;
    destruct (deepcopy_ref_outcome _ _ _ _ E) as [Hag Hfresh]; simpl; auto.
  pose proof (Hfresh (Some a) eq_refl) as Hloc. simpl in Hloc.
  unfold read. destruct (heap s1 !! a) as [[| cls me sm st |] |] eqn:Ea;
    simpl; auto.
  assert (Ha : (length (heap s) <= a)%nat) by (apply Hloc; now left).
  destruct sm as [ls |]; simpl; [| now apply agrees_insert].
  assert (Hls : (length (heap s) <= ls)%nat) by (apply Hloc; right; now left).
  destruct (<[a := OAcq cls (match me with Some _ => Some maxEval | None => None end)
                      (Some ls) st]> (heap s1) !! ls) as [[| | n] |];
    simpl; repeat apply agrees_insert; auto.
Qed.

Section Frame.

Hypothesis frame : optimize_frame.

Lemma call_optimize_agrees f c s base :
  (base <= length (heap s))%nat ->
  (forall l, In l (reach (heap s) c) -> (base <= l)%nat) ->
  forall l, (l < base)%nat ->
            heap (snd (call_optimize f c s)) !! l = heap s !! l.
Proof.
  intros Hb Hreach l Hl. unfold call_optimize.
  destruct (optimize f c (heap s) (rng s)) as [[r h'] g'] eqn:Hopt. simpl.
  eapply frame_agrees; eauto.
Qed.

Lemma run_once_agrees f maxEval optimizer bounds disp model acq i s :
  agrees (heap s) (heap (snd (run_once f maxEval optimizer bounds disp model acq i s))).
Proof.
  unfold run_once.
  unfold bind at 1, set_seed at 1.
  unfold bind at 1, draw_sample at 1. cbn [rng heap trace].
  destruct (get_slhd_sample _ _ _) as [x g].
  unfold bind at 1, eval_objective at 1, bind at 1, emit at 1, ret at 1.
  cbn [rng heap trace].
  set (s3 := mkState (heap s) g _).
  unfold bind at 1.
  destruct (deepcopy_ref model s3) as [[e | mi] s4] eqn:E4;
    destruct (deepcopy_ref_outcome _ _ _ _ E4) as [Hag4 Hfresh4];
    [exact Hag4 |].
  assert (Hupd : forall u s5,
             model_update mi x (objf f x) s4 = (u, s5) ->
             agrees (heap s) (heap s5) /\
             forall m, mi = Some m -> (length (heap s) <= m)%nat).
  { intros u s5. unfold model_update.
    destruct mi as [m |]; [| intros H; inversion H; subst; split; [auto | discriminate]].
    assert (Hm : (length (heap s) <= m)%nat).
    { apply (Hfresh4 (Some m) eq_refl). simpl. now left. }
    unfold bind, read, emit, write, raise.
    destruct (heap s4 !! m) as [[cls ii st | |] |]; simpl;
      intros H; inversion H; subst; simpl;
      (split; [| intros m' Hm'; inversion Hm'; subst; exact Hm]); auto.
    now apply agrees_insert. }
  unfold bind at 1.
  destruct (model_update mi x (objf f x) s4) as [[e | u] s5] eqn:E5;
    destruct (Hupd _ _ eq_refl) as [Hag5 Hm5]; [exact Hag5 |].
  assert (Hres : forall c,
             (forall l, In l (reach (heap s5) c) -> (length (heap s) <= l)%nat) ->
             agrees (heap s) (heap (snd (call_optimize f c s5)))).
  { intros c Hreach l Hl.
    rewrite (call_optimize_agrees f c s5 (length (heap s))); auto.
    now apply agrees_length. }
  assert (Hend : forall (c : M OptimizeResult) s6,
             agrees (heap s) (heap (snd (c s6))) ->
             agrees (heap s)
               (heap (snd (bind c (fun res =>
                  bind (emit (EPrint_x res))
                    (fun _ => bind (emit (EPrint_fx res)) (fun _ => ret res))) s6)))).
  { intros c s6 H. unfold bind, emit, ret.
    destruct (c s6) as [[e | r] s7]; simpl in *; exact H. }
  apply Hend.
  destruct (Optimizer_eqb optimizer surrogate_optimization
            || Optimizer_eqb optimizer dycors).
  - unfold bind.
    destruct (deepcopy_ref acq s5) as [[e | r'] s6] eqn:E6;
      destruct (deepcopy_ref_outcome _ _ _ _ E6) as [Hag6 Hfresh6].
    + simpl. eapply agrees_trans; eauto.
    + assert (Hag : agrees (heap s) (heap s6)) by (eapply agrees_trans; eauto).
      intros l Hl.
      rewrite (call_optimize_agrees f _ s6 (length (heap s))); auto.
      * now apply agrees_length.
      * unfold reach. simpl. intros l' Hin. apply in_app_or in Hin as [Hin | Hin].
        { destruct mi as [m |]; [| contradiction].
          destruct Hin as [<- | []]. now apply Hm5. }
        { pose proof (agrees_length _ _ Hag5).
          specialize (Hfresh6 r' eq_refl l' Hin). lia. }
  - apply Hres. unfold reach. simpl. intros l' Hin.
    rewrite app_nil_r in Hin. destruct mi as [m |]; [| contradiction].
    destruct Hin as [<- | []]. now apply Hm5.
Qed.

Lemma mapM_agrees {A B} (fn : A -> M B) l :
  (forall a s, agrees (heap s) (heap (snd (fn a s)))) ->
  forall s, agrees (heap s) (heap (snd (mapM fn l s))).
Proof.
  intros Hf. induction l as [| a l IH]; intros s; simpl; [apply agrees_refl |].
  unfold bind. specialize (Hf a s).
  destruct (fn a s) as [[e | b] s1]; simpl in *; [exact Hf |].
  specialize (IH s1).
  destruct (mapM fn l s1) as [[e | bs] s2]; simpl in *;
    eapply agrees_trans; eauto.
Qed.

(** X5. With an optimizer that changes only the objects it can reach
    from its arguments, the objects held by reference that existed when
    [run_optimizer] was called, which are the model and the acquisition of
    the configuration, the sampler of the acquisition and whatever else is
    on the heap, are unchanged when it ends, whatever the configuration and
    whatever the outcome, a result or an exception at any point: the
    deep copies are what the driver updates and hands over. This is a
    statement on the heap only. The random state is not kept: every run
    reseeds it (line 92) and it is left as the last run leaves it. The
    bounds and the objective are handed to the optimizer as they are; they
    are values here, not objects of the heap. *)
Theorem callers_objects_untouched f maxEval algo nRuns bounds disp s :
  forall l o,
    heap s !! l = Some o ->
    heap (snd (run_optimizer f maxEval algo nRuns bounds disp s)) !! l = Some o.
Proof.
  assert (H : agrees (heap s)
                (heap (snd (run_optimizer f maxEval algo nRuns bounds disp s)))).
  { unfold run_optimizer. cbv zeta.
    unfold bind at 1.
    destruct (assert _ s) as [[e | u] s0] eqn:E0.
    { unfold assert in E0. destruct (Nat.eqb _ _); inversion E0; subst.
      apply agrees_refl. }
    assert (s0 = s) as ->.
    { unfold assert in E0. destruct (Nat.eqb _ _); now inversion E0. }
    unfold bind at 1.
    pose proof (init_model_agrees algo (bounds_of f bounds) s) as H1.
    unfold bounds_of in H1.
    destruct (init_model algo _ s) as [[e | model] s1]; simpl in H1 |- *;
      [exact H1 |].
    unfold bind at 1.
    pose proof (init_acquisition_agrees algo maxEval
                  (length (bounds_of f bounds)) s1) as H2.
    unfold bounds_of in H2.
    destruct (init_acquisition algo maxEval _ s1) as [[e | acq] s2];
      simpl in H2 |- *; [eapply agrees_trans; eauto |].
    eapply agrees_trans; [eapply agrees_trans; [exact H1 | exact H2] |].
    apply mapM_agrees. intros i s'. apply run_once_agrees. }
  intros l o Hl. eapply agrees_lookup; eauto.
Qed.

End Frame.

(** ** The acquisition that is handed over *)

Lemma configured_runs_events f maxEval optimizer bounds disp cls ii st
    acls me0 n0 ast ks runs :
  forwards_acquisition optimizer ->
  Forall2 (run_on f bounds cls ii st
             (configured maxEval (length bounds) (Some (acls, Some me0, Some n0, ast))))
          ks runs ->
  Forall (call_as_written optimizer bounds maxEval disp) (concat runs) ->
  Forall (fun e =>
            match e with
            | EOptimize c h _ =>
                call_maxeval c = maxEval - 2 * (Z.of_nat (length bounds) + 1) /\
                exists a ls,
                  call_acquisitionFunc c = Some (Some a) /\
                  h !! a = Some (OAcq acls (Some maxEval) (Some ls) ast) /\
                  h !! ls = Some (OSampler (Z.min (100 * Z.of_nat (length bounds)) 5000))
            | _ => True
            end) (concat runs).
Proof.
  intros Hfw. induction 1 as [| k evs ks runs Hk _ IH]; simpl; [constructor |].
  intros Hall. apply Forall_app in Hall as [Hevs Hrest].
  apply Forall_app. split; [| now apply IH].
  destruct Hk as (x & g & m & c & h & r & _ & -> & _ & _ & Hacq).
  unfold run_events in *.
  repeat (constructor; [exact I |]).
  do 4 (apply List.Forall_cons_iff in Hevs as [_ Hevs]).
  apply List.Forall_cons_iff in Hevs as [Hc _].
  destruct Hc as (_ & _ & _ & Hbudget & Hsome).
  constructor; [| repeat constructor].
  split; [exact Hbudget |].
  apply Hsome in Hfw. destruct Hfw as [r' Hr']. rewrite Hr' in Hacq.
  simpl in Hacq. destruct r' as [a |]; [| contradiction].
  destruct Hacq as (ls & H1 & H2). now exists a, ls.
Qed.

(** X4. For [surrogate_optimization] and [dycors], on a caller's
    acquisition that has a [maxeval] and a sampler: in every run the
    optimizer is given the budget left, [maxEval - 2 * (dimension + 1)],
    while the acquisition it is handed has [maxeval = maxEval], the whole
    budget, and a sampler of size [min(100 * dimension, 5000)], which is
    never above 5000 and is [100 * dimension] up to dimension 50. *)
Theorem acquisition_keeps_whole_budget f maxEval algo nRuns bounds disp s
    m cls ii st acls me0 n0 ast :
  optimize_frame ->
  length (bounds_of f bounds) = length (domain f) ->
  algo_model algo = Some m ->
  heap s !! m = Some (OModel cls ii st) ->
  denotes_acquisition (heap s) (algo_acquisition algo)
    (Some (acls, Some me0, Some n0, ast)) ->
  forwards_acquisition (algo_optimizer algo) ->
  let dim := Z.of_nat (length (bounds_of f bounds)) in
  (0 <= Z.min (100 * dim) 5000 <= 5000 /\
   (dim <= 50 -> Z.min (100 * dim) 5000 = 100 * dim)) /\
  exists rs s' evs,
    run_optimizer f maxEval algo nRuns bounds disp s = (inr rs, s') /\
    trace s' = trace s ++ evs /\
    Forall (fun e =>
              match e with
              | EOptimize c h _ =>
                  call_maxeval c = maxEval - 2 * (dim + 1) /\
                  exists a ls,
                    call_acquisitionFunc c = Some (Some a) /\
                    h !! a = Some (OAcq acls (Some maxEval) (Some ls) ast) /\
                    h !! ls = Some (OSampler (Z.min (100 * dim) 5000))
              | _ => True
              end) evs.
Proof.
  intros Hframe Hdim Hm Hmodel Hacq Hfw dim. split; [lia |].
  destruct (run_optimizer_runs f maxEval algo nRuns bounds disp s m cls ii st _
              Hframe Hdim Hm Hmodel Hacq)
    as (rs & s' & runs & Hrun & _ & _ & Htr & Hall & _).
  exists rs, s', (concat runs). split; [exact Hrun | split; [exact Htr |]].
  destruct (emits_run_optimizer f maxEval algo nRuns bounds disp s)
    as (evs & E & F).
  rewrite Hrun in E. simpl in E. rewrite Htr in E.
  apply app_inv_head in E. subst evs.
  eapply configured_runs_events; eauto.
Qed.

End DriverEdges.

(** * The benchmark program *)

Section BenchmarkTheory.

Context `{L : Library}.

Variable myFuncs : Benchmark.Problem -> Objective.
Variables model_at acquisition_at : AlgoName -> nat.

(** ** The values of [-b] *)

Lemma half_of_two_more k : (S (S k) / 2 = S (k / 2))%nat.
Proof.
  replace (S (S k)) with (k + 1 * 2)%nat by lia.
  rewrite Nat.div_add by lia. lia.
Qed.

Lemma process_bounds_pair_up v :
  Benchmark.process_bounds (Some v) = Some (Benchmark.pair_up v).
Proof.
  unfold Benchmark.process_bounds. f_equal.
  assert (H : forall n v, (length v <= n)%nat ->
              map (fun i => (PyFloat (nth (2 * i) v 0%Q),
                             PyFloat (nth (2 * i + 1) v 0%Q)))
                  (seq 0 (length v / 2))
              = Benchmark.pair_up v).
  { clear v. induction n as [| n IH]; intros v Hn.
    - destruct v; [reflexivity | simpl in Hn; lia].
    - destruct v as [| lo [| hi rest]]; [reflexivity | reflexivity |].
      simpl length. rewrite half_of_two_more. simpl seq.
      rewrite <- seq_shift, map_cons, map_map.
      cbn [Benchmark.pair_up]. f_equal.
      rewrite <- (IH rest) by (simpl in Hn; lia).
      apply map_ext. intros i.
      replace (2 * S i)%nat with (S (S (2 * i))) by lia.
      reflexivity. }
  now apply (H (length v)).
Qed.

Lemma pair_up_in_order ps :
  Benchmark.pair_up (Benchmark.in_order ps)
  = map (fun p => (PyFloat (fst p), PyFloat (snd p))) ps.
Proof. induction ps as [| p ps IH]; simpl; [| rewrite IH]; reflexivity. Qed.

Lemma pair_up_surplus k : forall v x,
  length v = (2 * k)%nat ->
  Benchmark.pair_up (v ++ [x]) = Benchmark.pair_up v.
Proof.
  induction k as [| k IH]; intros v x Hk.
  - destruct v; [reflexivity | discriminate].
  - destruct v as [| lo [| hi rest]]; simpl in Hk; try lia.
    simpl. f_equal. apply IH. lia.
Qed.

Lemma pair_up_length k : forall v,
  (length v = 2 * k \/ length v = 2 * k + 1)%nat ->
  length (Benchmark.pair_up v) = k.
Proof.
  induction k as [| k IH]; intros v Hk.
  - destruct v as [| lo [| hi rest]]; simpl in *; try reflexivity; lia.
  - destruct v as [| lo [| hi rest]]; simpl in Hk; try lia.
    simpl. f_equal. apply IH. lia.
Qed.

(** X6. The values of [-b] are taken two by two, in the order
    [low0, high0, low1, high1, ...]: the values written out from a list of
    pairs give back these pairs, as floats; there are
    [len(args.bounds) // 2] pairs; and a value left over after the last
    pair is dropped without a word. *)
Theorem process_bounds_pairs :
  (forall ps,
     Benchmark.process_bounds (Some (Benchmark.in_order ps))
     = Some (map (fun p => (PyFloat (fst p), PyFloat (snd p))) ps)) /\
  (forall v, exists b,
     Benchmark.process_bounds (Some v) = Some b /\
     length b = (length v / 2)%nat) /\
  (forall v x,
     Nat.Even (length v) ->
     Benchmark.process_bounds (Some (v ++ [x]))
     = Benchmark.process_bounds (Some v)) /\
  Benchmark.process_bounds None = None.
Proof.
  split; [| split; [| split; [| reflexivity]]].
  - intros ps. now rewrite process_bounds_pair_up, pair_up_in_order.
  - intros v. exists (Benchmark.pair_up v). split; [apply process_bounds_pair_up |].
    apply pair_up_length.
    pose proof (Nat.div_mod_eq (length v) 2) as E.
    pose proof (Nat.mod_upper_bound (length v) 2). lia.
  - intros v x [k Hk]. rewrite !process_bounds_pair_up. f_equal.
    now apply (pair_up_surplus k).
Qed.

Lemma integral_indices_of_floats (b : Bounds) :
  Forall (fun lh => isinstance_int (fst lh) = false) b ->
  integral_indices b = [].
Proof.
  intros H. unfold integral_indices.
  assert (Hf : forall l, List.filter
                 (fun i => match b !! i with
                           | Some (lo, hi) => isinstance_int lo && isinstance_int hi
                           | None => false
                           end) l = []).
  { induction l as [| i l IH]; simpl; [reflexivity |].
    destruct (b !! i) as [[lo hi] |] eqn:E; [| exact IH].
    rewrite List.Forall_forall in H.
    assert (Hlo : isinstance_int lo = false).
    { apply (H (lo, hi)). apply list_elem_of_In. eapply list_elem_of_lookup_2. exact E. }
    now rewrite Hlo. }
  apply Hf.
Qed.

(** X7. Bounds that come from [-b] are floats, so no coordinate is ever
    integral: the index tuple of lines 74-78 is empty, whole numbers or
    not, and an RBF model gets an empty [iindex]. *)
Theorem cli_bounds_are_continuous :
  forall v, exists b,
    Benchmark.process_bounds (Some v) = Some b /\
    integral_indices b = [] /\
    forall ii, derived_iindex RbfModel ii b = [].
Proof.
  intros v. exists (Benchmark.pair_up v).
  split; [apply process_bounds_pair_up |].
  assert (H : integral_indices (Benchmark.pair_up v) = []).
  { apply integral_indices_of_floats.
    rewrite <- (f_equal (fun o => match o with Some b => b | None => [] end)
                  (process_bounds_pair_up v)).
    simpl. apply Forall_map. apply List.Forall_forall. reflexivity. }
  split; [exact H | intros ii; exact H].
Qed.

(** ** The call of [run_optimizer] *)

Lemma run_optimizer_asserts f maxEval algo nRuns bounds disp s :
  length (bounds_of f bounds) <> length (domain f) ->
  run_optimizer f maxEval algo nRuns bounds disp s = (inl AssertionError, s).
Proof.
  intros H. unfold run_optimizer. fold (bounds_of f bounds).
  apply Nat.eqb_neq in H. cbv zeta. now rewrite H.
Qed.

Lemma snd_bind_ret {A B} (c : M A) (g : A -> B) s :
  snd (bind c (fun a => ret (g a)) s) = snd (c s).
Proof. unfold bind, ret. now destruct (c s) as [[e | a] s1]. Qed.

Lemma emits_both {A} (P Q : Event -> Prop) (c : M A) :
  emits P c -> emits Q c -> emits (fun e => P e /\ Q e) c.
Proof.
  intros HP HQ s. destruct (HP s) as (e1 & E1 & F1), (HQ s) as (e2 & E2 & F2).
  rewrite E1 in E2. apply app_inv_head in E2. subst e2.
  exists e1. split; [exact E1 |].
  rewrite List.Forall_forall in *. auto.
Qed.

Lemma emits_run_once_no_object f maxEval optimizer bounds disp model i :
  emits passes_no_object
        (run_once f maxEval optimizer bounds disp model None i).
Proof.
  unfold run_once.
  apply emits_bind.
  { intros s. exists [ESeed (Z.of_nat i)]. simpl. split; [easy | now constructor]. }
  intros _. apply emits_bind.
  { intros s. unfold draw_sample.
    destruct (get_slhd_sample _ _ _) as [x g]. simpl.
    eexists. split; [reflexivity |]. now repeat constructor. }
  intros x. apply emits_bind.
  { unfold eval_objective. apply emits_bind; [now apply emits_emit |].
    intros; apply emits_ret. }
  intros y. apply emits_bind; [apply emits_deepcopy_ref |].
  intros modelIter. apply emits_bind.
  { unfold model_update. destruct modelIter as [m |]; [| apply emits_raise].
    apply emits_bind; [apply emits_read |].
    intros [| |]; intros; try apply emits_raise.
    apply emits_bind; [now apply emits_emit | intros; apply emits_write]. }
  intros _. apply emits_bind.
  - destruct (Optimizer_eqb optimizer surrogate_optimization
              || Optimizer_eqb optimizer dycors).
    + intros s. simpl deepcopy_ref. unfold bind, ret, call_optimize.
      destruct (optimize _ _ _ _) as [[r h] g]. simpl.
      eexists. split; [reflexivity |]. constructor; [| constructor].
      simpl. now right.
    + intros s. unfold call_optimize.
      destruct (optimize _ _ _ _) as [[r h] g]. simpl.
      eexists. split; [reflexivity |]. constructor; [| constructor].
      simpl. now left.
  - intros r. apply emits_bind; [now apply emits_emit |].
    intros _. apply emits_bind; [now apply emits_emit | intros; apply emits_ret].
Qed.

Lemma emits_run_optimizer_no_object f maxEval algo nRuns bounds disp :
  algo_acquisition algo = None ->
  emits passes_no_object (run_optimizer f maxEval algo nRuns bounds disp).
Proof.
  intros Hnone. unfold run_optimizer. cbv zeta.
  apply emits_bind; [apply emits_assert |]. intros _.
  apply emits_bind; [apply emits_init_model |]. intros model s.
  unfold bind at 1. unfold init_acquisition. rewrite Hnone.
  simpl deepcopy_ref. unfold bind at 1, ret at 1, ret at 1.
  apply emits_mapM. intros i. apply emits_run_once_no_object.
Qed.

(** X8. As the program calls it, [run_optimizer] gets the budget
    [100 * (dimension + 1)] of [maxEvals], where the dimension is that of
    the problem's own domain. Whatever [-b] holds and whatever happens,
    every design requested has [2 * (dimension + 1)] points and every
    optimizer call has the budget [98 * (dimension + 1)], which is
    positive. *)
Theorem main_budget folder args t0 tf s :
  let dim := Z.of_nat (length (domain (myFuncs (Benchmark.problem args)))) in
  Benchmark.maxEvals myFuncs (Benchmark.problem args) = 100 * (dim + 1) /\
  exists evs,
    trace (snd (snd (Benchmark.main myFuncs model_at acquisition_at
                       folder args t0 tf) s))
      = trace s ++ evs /\
    Forall (fun e =>
              match e with
              | ESample n _ => n = 2 * (dim + 1)
              | EOptimize c _ _ =>
                  call_maxeval c = 98 * (dim + 1) /\ 0 < call_maxeval c
              | _ => True
              end) evs.
Proof.
  intros dim. split; [reflexivity |].
  unfold Benchmark.main. cbv zeta. cbn [snd]. rewrite snd_bind_ret.
  set (f := myFuncs (Benchmark.problem args)) in *.
  set (bo := Benchmark.process_bounds (Benchmark.bounds args)).
  destruct (Nat.eq_dec (length (bounds_of f bo)) (length (domain f))) as [E | N].
  - destruct (emits_run_optimizer f (Benchmark.maxEvals myFuncs (Benchmark.problem args))
                (Benchmark.algorithm_entry model_at acquisition_at
                   (Benchmark.algorithm args))
                (Benchmark.ntrials args) bo true s) as (evs & T & F).
    exists evs. split; [exact T |].
    eapply List.Forall_impl; [| exact F].
    intros [| n b | | | c h g | |]; simpl; auto;
      unfold Benchmark.maxEvals, initial_design_size; fold f; rewrite E;
      fold dim.
    + intros [-> _]. reflexivity.
    + intros (_ & _ & _ & -> & _). lia.
  - rewrite run_optimizer_asserts by exact N.
    exists []. simpl. now rewrite app_nil_r.
Qed.

(** X9. When [-b] holds a number of pairs that is not the dimension of the
    problem, the four parameters are printed and the call of
    [run_optimizer] raises [AssertionError] at once: nothing is copied,
    sampled or evaluated, and no file is written. *)
Theorem main_wrong_number_of_bounds folder args t0 tf s v :
  Benchmark.bounds args = Some v ->
  (length v / 2)%nat <> length (domain (myFuncs (Benchmark.problem args))) ->
  fst (Benchmark.main myFuncs model_at acquisition_at folder args t0 tf)
  = (Benchmark.algorithm args, Benchmark.problem args,
     Some (Benchmark.pair_up v), Benchmark.ntrials args) /\
  snd (Benchmark.main myFuncs model_at acquisition_at folder args t0 tf) s
  = (inl AssertionError, s).
Proof.
  intros Hv Hlen. unfold Benchmark.main. cbv zeta. cbn [fst snd].
  rewrite Hv, process_bounds_pair_up. split; [reflexivity |].
  apply bind_inl. apply run_optimizer_asserts. simpl.
  intros E. apply Hlen. rewrite <- E.
  symmetry. apply pair_up_length.
  pose proof (Nat.div_mod_eq (length v) 2).
  pose proof (Nat.mod_upper_bound (length v) 2). lia.
Qed.

(** X11. As the program calls it, the entry of the table decides what the
    optimizer is handed: for MLSL every call has the keyword
    [acquisitionFunc]; for DYCORS every call has it with the value [None];
    for SRS, CPTV, CPTVl and GP no call has it, so the [MaximizeEI] of the
    GP entry never reaches its optimizer. *)
Theorem main_hands_over_by_table folder args t0 tf s :
  exists evs,
    trace (snd (snd (Benchmark.main myFuncs model_at acquisition_at
                       folder args t0 tf) s))
      = trace s ++ evs /\
    Forall (fun e =>
              match e with
              | EOptimize c _ _ =>
                  match Benchmark.algorithm args with
                  | MLSL => is_Some (call_acquisitionFunc c)
                  | DYCORS => call_acquisitionFunc c = Some None
                  | _ => call_acquisitionFunc c = None
                  end
              | _ => True
              end) evs.
Proof.
  unfold Benchmark.main. cbv zeta. cbn [snd]. rewrite snd_bind_ret.
  set (f := myFuncs (Benchmark.problem args)).
  set (bo := Benchmark.process_bounds (Benchmark.bounds args)).
  set (me := Benchmark.maxEvals myFuncs (Benchmark.problem args)).
  set (algo := Benchmark.algorithm_entry model_at acquisition_at
                 (Benchmark.algorithm args)).
  pose proof (emits_run_optimizer f me algo (Benchmark.ntrials args) bo true) as Hw.
  assert (Hopt : algo_optimizer algo = snd (fst (algorithms (Benchmark.algorithm args))))
    by reflexivity.
  assert (Hquiet : ~ forwards_acquisition (algo_optimizer algo) ->
                   exists evs,
                     trace (snd (run_optimizer f me algo (Benchmark.ntrials args) bo true s))
                       = trace s ++ evs /\
                     Forall (fun e => match e with
                                      | EOptimize c _ _ => call_acquisitionFunc c = None
                                      | _ => True
                                      end) evs).
  { intros Hnot. destruct (Hw s) as (evs & T & F). exists evs. split; [exact T |].
    eapply List.Forall_impl; [| exact F].
    intros [| | | | c h g | |]; simpl; auto.
    intros (_ & _ & _ & _ & H).
    destruct (call_acquisitionFunc c) as [a |]; [| reflexivity].
    exfalso. apply Hnot, H. eauto. }
  assert (Hnot : forall o, o <> surrogate_optimization -> o <> dycors ->
                           ~ forwards_acquisition o).
  { intros o H1 H2 [H | H]; contradiction. }
  destruct (Benchmark.algorithm args) eqn:Ea; cbn [algorithms fst snd] in Hopt.
  - apply Hquiet. rewrite Hopt. apply Hnot; discriminate.
  - assert (Hnone : algo_acquisition algo = None).
    { reflexivity. }
    destruct (emits_both _ _ _ Hw
                (emits_run_optimizer_no_object f me algo
                   (Benchmark.ntrials args) bo true Hnone) s) as (evs & T & F).
    exists evs. split; [exact T |].
    eapply List.Forall_impl; [| exact F].
    intros [| | | | c h g | |]; simpl; auto.
    intros [(_ & _ & _ & _ & H) [Hn | Hn]]; [| exact Hn].
    exfalso. assert (Hs : is_Some (call_acquisitionFunc c)).
    { apply H. right. reflexivity. }
    rewrite Hn in Hs. destruct Hs; discriminate.
  - apply Hquiet. rewrite Hopt. apply Hnot; discriminate.
  - apply Hquiet. rewrite Hopt. apply Hnot; discriminate.
  - destruct (Hw s) as (evs & T & F). exists evs. split; [exact T |].
    eapply List.Forall_impl; [| exact F].
    intros [| | | | c h g | |]; simpl; auto.
    intros (_ & _ & _ & _ & H). apply H. left. reflexivity.
  - apply Hquiet. rewrite Hopt. apply Hnot; discriminate.
Qed.

Lemma run_optimizer_returns_all f maxEval algo nRuns bounds disp s rs s' :
  run_optimizer f maxEval algo nRuns bounds disp s = (inr rs, s') ->
  length (bounds_of f bounds) = length (domain f) /\
  length rs = Z.to_nat nRuns.
Proof.
  intros H. split.
  - destruct (Nat.eq_dec (length (bounds_of f bounds)) (length (domain f)))
      as [E | N]; [exact E |].
    rewrite run_optimizer_asserts in H by exact N. discriminate.
  - unfold run_optimizer in H. cbv zeta in H.
    apply bind_inv in H as (u & s1 & _ & H).
    apply bind_inv in H as (model & s2 & _ & H).
    apply bind_inv in H as (acq & s3 & _ & H).
    now apply runs_inv in H as (runs & _ & _ & Len).
Qed.

(** X12. A result file is written only after [run_optimizer] has returned,
    and then its name is the one of lines 243-252 and its content is: the
    dimension of the problem, the budget [100 * (dimension + 1)], the
    number of trials asked for, one result per trial (none when the number
    is not positive), the time between the two readings of the clock, and
    the bounds, which, when given, have exactly as many pairs as the
    problem has dimensions. *)
Theorem main_writes_one_result_per_trial folder args t0 tf s path pk s' :
  snd (Benchmark.main myFuncs model_at acquisition_at folder args t0 tf) s
  = (inr (path, pk), s') ->
  path = Benchmark.filepath folder args /\
  Benchmark.pickled_dim pk = length (domain (myFuncs (Benchmark.problem args))) /\
  Benchmark.pickled_maxEvals pk = 100 * (Z.of_nat (Benchmark.pickled_dim pk) + 1) /\
  Benchmark.pickled_ntrials pk = Benchmark.ntrials args /\
  length (Benchmark.pickled_optres pk) = Z.to_nat (Benchmark.ntrials args) /\
  Benchmark.pickled_time pk = (tf - t0)%Q /\
  Benchmark.pickled_bounds pk = Benchmark.process_bounds (Benchmark.bounds args) /\
  (forall b, Benchmark.pickled_bounds pk = Some b ->
             length b = Benchmark.pickled_dim pk).
Proof.
  unfold Benchmark.main. cbv zeta. cbn [snd]. intros H.
  apply bind_inv in H as (optres & s1 & Hrun & Hret).
  unfold ret in Hret. injection Hret as <- <- <-.
  apply run_optimizer_returns_all in Hrun as [Hdim Hlen].
  cbn [Benchmark.pickled_dim Benchmark.pickled_maxEvals Benchmark.pickled_ntrials
       Benchmark.pickled_optres Benchmark.pickled_time Benchmark.pickled_bounds].
  repeat split; try assumption.
  intros b Hb. rewrite Hb in Hdim. exact Hdim.
Qed.

End BenchmarkTheory.

(** ** The result file *)

Lemma string_append_assoc (a b c : String.string) :
  String.append (String.append a b) c = String.append a (String.append b c).
Proof. induction a as [| ch a IH]; simpl; [reflexivity | now rewrite IH]. Qed.

Lemma string_append_cancel (a b c : String.string) :
  String.append a b = String.append a c -> b = c.
Proof.
  induction a as [| ch a IH]; simpl; intros H; [exact H |].
  injection H as H. now apply IH.
Qed.

Lemma filepath_file_name folder args :
  Benchmark.filepath folder args
  = Benchmark.below folder (Benchmark.file_name (Benchmark.file_key args)).
Proof.
  unfold Benchmark.filepath, Benchmark.file_name, Benchmark.file_key,
    Benchmark.below.
  cbn [fst snd]. now rewrite !string_append_assoc.
Qed.

Lemma problem_key_inj p1 p2 :
  Benchmark.problem_key p1 = Benchmark.problem_key p2 -> p1 = p2.
Proof. destruct p1, p2; simpl; intros H; try reflexivity; discriminate H. Qed.

Lemma algorithm_key_inj a1 a2 :
  Benchmark.algorithm_key a1 = Benchmark.algorithm_key a2 -> a1 = a2.
Proof. destruct a1, a2; simpl; intros H; try reflexivity; discriminate H. Qed.

Lemma all_file_keys_complete k : In k Benchmark.all_file_keys.
Proof.
  destruct k as [[p a] b]. unfold Benchmark.all_file_keys.
  apply in_prod; [apply in_prod |].
  - destruct p; simpl; tauto.
  - destruct a; simpl; tauto.
  - destruct b; simpl; tauto.
Qed.

Lemma file_name_inj k1 k2 :
  Benchmark.file_name k1 = Benchmark.file_name k2 -> k1 = k2.
Proof.
  intros H.
  assert (C : Benchmark.file_names_differ = true) by (vm_compute; reflexivity).
  unfold Benchmark.file_names_differ in C.
  rewrite forallb_forall in C. specialize (C k1 (all_file_keys_complete k1)).
  rewrite forallb_forall in C. specialize (C k2 (all_file_keys_complete k2)).
  rewrite H, String.eqb_refl in C. cbn [implb] in C.
  apply andb_prop in C as [C Cb]. apply andb_prop in C as [Cp Ca].
  apply String.eqb_eq in Cp, Ca. apply Bool.eqb_prop in Cb.
  apply problem_key_inj in Cp. apply algorithm_key_inj in Ca.
  destruct k1 as [[p1 a1] b1], k2 as [[p2 a2] b2]. simpl in *. congruence.
Qed.

(** X10. Two command lines name the same result file exactly when they
    have the same problem, the same algorithm and bounds that are both
    non-empty or both absent or empty: the number of trials and the values
    of the bounds play no part in the name, so such runs write to one
    file. *)
Theorem filepath_collisions folder a1 a2 :
  Benchmark.filepath folder a1 = Benchmark.filepath folder a2 <->
  Benchmark.problem a1 = Benchmark.problem a2 /\
  Benchmark.algorithm a1 = Benchmark.algorithm a2 /\
  Benchmark.truthy (Benchmark.process_bounds (Benchmark.bounds a1))
  = Benchmark.truthy (Benchmark.process_bounds (Benchmark.bounds a2)).
Proof.
  rewrite !filepath_file_name. unfold Benchmark.below. split.
  - intros H. apply string_append_cancel, file_name_inj in H.
    unfold Benchmark.file_key in H. injection H as Hp Ha Hb. auto.
  - intros (Hp & Ha & Hb). unfold Benchmark.file_key.
    now rewrite Hp, Ha, Hb.
Qed.

(** * The driver on the concrete collaborators *)

Import Demo.

Lemma demo_frame : optimize_frame.
Proof.
  intros f c h g r h' g' H. simpl in H. unfold demo_optimize in H.
  inversion H; subst; clear H. split.
  - destruct (call_surrogateModel c), (call_acquisitionFunc c) as [[a |] |];
      rewrite ?length_insert; lia.
  - intros l Hl Hreach. unfold reach in Hreach.
    destruct (call_surrogateModel c) as [m |],
             (call_acquisitionFunc c) as [[a |] |]; simpl in Hreach;
      rewrite ?list_lookup_insert_ne; auto; intros ->; apply Hreach; auto.
Qed.

(** Two runs of the MLSL-like entry over the objective's own domain. *)
Lemma run_optimizer_initial_design_witness :
  exists runs,
    trace (snd (run_optimizer objective 300 mlsl 2 None true state0))
      = trace state0 ++ concat runs /\
    length [294; 294] = Z.to_nat 2 /\
    Forall2 (run_with_budget objective 300 (algo_optimizer mlsl)
               (bounds_of objective None) true)
            (seq 0 (Z.to_nat 2)) runs.
Proof.
  apply (proj2 (run_optimizer_initial_design objective 300 mlsl 2 None true
                  state0) [294; 294]).
  vm_compute. reflexivity.
Defined.

(** One bound pair for an objective of two dimensions. *)
Lemma run_optimizer_dimension_mismatch_witness :
  run_optimizer objective 300 cptv_algo 1 (Some [(PyInt 0, PyInt 1)]) true state0
    = (inl AssertionError, state0).
Proof.
  apply (run_optimizer_dimension_mismatch objective 300 cptv_algo 1
           [(PyInt 0, PyInt 1)] true state0).
  simpl. lia.
Defined.

(** C8 as stated fails: the first dimension has [low = 1 >= high = 0], the
    number of dimensions is the objective's, and the run goes on to
    evaluate the objective on the design and returns the optimizer's
    result. *)
Lemma empty_dimension_is_evaluated :
  has_empty_dimension [(PyInt 1, PyInt 0); (PyFloat 0, PyInt 3)] = true /\
  length [(PyInt 1, PyInt 0); (PyFloat 0, PyInt 3)] = length (domain objective) /\
  fst (run_optimizer objective 300 cptv_algo 1
         (Some [(PyInt 1, PyInt 0); (PyFloat 0, PyInt 3)]) true state0)
    = inr [294] /\
  In (EObjective [[1; 0]; [1; 0]; [1; 0]; [1; 0]; [1; 0]; [1; 0]]%Q)
     (trace (snd (run_optimizer objective 300 cptv_algo 1
                    (Some [(PyInt 1, PyInt 0); (PyFloat 0, PyInt 3)])
                    true state0))).
Proof.
  repeat split; try reflexivity.
  vm_compute. right. right. left. reflexivity.
Qed.

(** C7 as stated fails: both bounds of both dimensions are whole numbers,
    written as floats, and the RBF model the optimizer receives has no
    integral coordinate. *)
Lemma whole_float_bounds_are_continuous :
  domain objective = [(PyFloat 0, PyFloat 1); (PyFloat 0, PyFloat 1)] /\
  is_whole (PyFloat 0) = true /\
  is_whole (PyFloat 1) = true /\
  exists c h g st,
    In (EOptimize c h g)
       (trace (snd (run_optimizer objective 300 mlsl 1 None true state0))) /\
    call_surrogateModel c = Some 6%nat /\
    h !! 6%nat = Some (OModel RbfModel [] st).
Proof.
  repeat split.
  vm_compute. do 4 eexists. split; [| split].
  - do 4 right. left. reflexivity.
  - reflexivity.
  - reflexivity.
Qed.

Lemma integrality_from_int_bounds_witness :
  exists rs s' runs,
    run_optimizer objective 300 mlsl 2 (Some [(PyInt 0, PyInt 4); (PyFloat 0, PyInt 1)])
      true state0 = (inr rs, s') /\
    trace s' = trace state0 ++ concat runs /\
    length runs = Z.to_nat 2 /\
    heap s' !! 0%nat = Some (OModel RbfModel [7%nat] ([], [])) /\
    Forall (fun evs =>
              exists x y m' c h g r ii' st' k,
                evs = run_events k
                        (bounds_of objective (Some [(PyInt 0, PyInt 4); (PyFloat 0, PyInt 1)]))
                        x y m' c h g r /\
                call_surrogateModel c = Some m' /\
                h !! m' = Some (OModel RbfModel ii' st') /\
                forall i,
                  In i ii' <->
                  if isinstance_RbfModel RbfModel
                  then exists lo hi,
                         bounds_of objective (Some [(PyInt 0, PyInt 4); (PyFloat 0, PyInt 1)]) !! i
                           = Some (lo, hi) /\
                         isinstance_int lo = true /\ isinstance_int hi = true
                  else In i [7%nat])
           runs.
Proof.
  apply (integrality_from_int_bounds objective 300 mlsl 2
           (Some [(PyInt 0, PyInt 4); (PyFloat 0, PyInt 1)]) true state0
           0%nat RbfModel [7%nat] ([], [])
           (Some (MinimizeSurrogate, Some 9, Some 3, tt))).
  - exact demo_frame.
  - reflexivity.
  - reflexivity.
  - reflexivity.
  - exists 1%nat. split; reflexivity.
Defined.

Lemma runs_share_no_object_witness :
  exists rs s' runs,
    run_optimizer objective 300 mlsl 2 None true state0 = (inr rs, s') /\
    length rs = Z.to_nat 2 /\
    (forall l, (l < length (heap state0))%nat -> heap s' !! l = heap state0 !! l) /\
    trace s' = trace state0 ++ concat runs /\
    Forall2 (run_as_configured objective 300 (bounds_of objective None)
               RbfModel [7%nat] ([], [])
               (Some (MinimizeSurrogate, Some 9, Some 3, tt)))
            (seq 0 (Z.to_nat 2)) runs /\
    List.NoDup (flat_map handed_over (concat runs)) /\
    Forall (fun l => (length (heap state0) <= l)%nat)
           (flat_map handed_over (concat runs)).
Proof.
  apply (runs_share_no_object objective 300 mlsl 2 None true state0
           0%nat RbfModel [7%nat] ([], [])
           (Some (MinimizeSurrogate, Some 9, Some 3, tt))).
  - exact demo_frame.
  - reflexivity.
  - reflexivity.
  - reflexivity.
  - exists 1%nat. split; reflexivity.
Defined.

(** A negative number of runs. *)
Lemma no_runs_witness :
  exists copies,
    run_optimizer objective 300 mlsl (-1) None true state0
    = (inr [], mkState (heap state0 ++ copies) (rng state0) (trace state0)).
Proof.
  apply (no_runs objective 300 mlsl (-1) None true state0
           0%nat RbfModel [7%nat] ([], [])
           (Some (MinimizeSurrogate, Some 9, Some 3, tt))).
  - lia.
  - reflexivity.
  - reflexivity.
  - reflexivity.
  - exists 1%nat. split; reflexivity.
Defined.

Lemma designs_depend_on_seed_only_witness :
  exists evs,
    trace (snd (run_optimizer objective 300 mlsl 2 None true state0))
      = trace state0 ++ evs /\
    designs evs
    = map (fun i =>
             fst (get_slhd_sample
                    (2 * (Z.of_nat (length (bounds_of objective None)) + 1))
                    (bounds_of objective None) (seed (Z.of_nat i))))
          (seq 0 (Z.to_nat 2)).
Proof.
  apply (designs_depend_on_seed_only objective 300 mlsl 2 None true state0
           [294; 294] (snd (run_optimizer objective 300 mlsl 2 None true state0))).
  vm_compute. reflexivity.
Defined.

Lemma missing_model_fails_after_evaluation_witness :
  exists x g copies,
    get_slhd_sample (2 * (Z.of_nat (length (bounds_of objective None)) + 1))
      (bounds_of objective None) (seed 0) = (x, g) /\
    run_optimizer objective 300 no_model 1 None true state0
    = (inl AttributeError,
       mkState (heap state0 ++ copies) g
         (trace state0 ++
          [ESeed 0;
           ESample (2 * (Z.of_nat (length (bounds_of objective None)) + 1))
                   (bounds_of objective None);
           EObjective x])).
Proof.
  apply (missing_model_fails_after_evaluation objective 300 no_model 1 None true
           state0 (Some (MinimizeSurrogate, Some 9, Some 3, tt))).
  - lia.
  - reflexivity.
  - reflexivity.
  - exists 1%nat. split; reflexivity.
Defined.

Lemma acquisition_keeps_whole_budget_witness :
  (0 <= Z.min (100 * 2) 5000 <= 5000 /\
   (2 <= 50 -> Z.min (100 * 2) 5000 = 100 * 2)) /\
  exists rs s' evs,
    run_optimizer objective 300 mlsl 2 None true state0 = (inr rs, s') /\
    trace s' = trace state0 ++ evs /\
    Forall (fun e =>
              match e with
              | EOptimize c h _ =>
                  call_maxeval c = 300 - 2 * (2 + 1) /\
                  exists a ls,
                    call_acquisitionFunc c = Some (Some a) /\
                    h !! a = Some (OAcq MinimizeSurrogate (Some 300) (Some ls) tt) /\
                    h !! ls = Some (OSampler (Z.min (100 * 2) 5000))
              | _ => True
              end) evs.
Proof.
  apply (acquisition_keeps_whole_budget objective 300 mlsl 2 None true state0
           0%nat RbfModel [7%nat] ([], []) MinimizeSurrogate 9 3 tt).
  - exact demo_frame.
  - reflexivity.
  - reflexivity.
  - reflexivity.
  - exists 1%nat. split; reflexivity.
  - left. reflexivity.
Defined.

(** The caller's acquisition after two runs. *)
Lemma callers_objects_untouched_witness :
  heap (snd (run_optimizer objective 300 mlsl 2 None true state0)) !! 2%nat
  = Some (OAcq MinimizeSurrogate (Some 9) (Some 1%nat) tt).
Proof.
  apply (callers_objects_untouched demo_frame objective 300 mlsl 2 None true
           state0 2%nat).
  reflexivity.
Defined.

(** Three values of [-b]: the third is dropped. *)
Lemma process_bounds_pairs_witness :
  Benchmark.process_bounds (Some ([0; 1] ++ [2])%Q)
  = Benchmark.process_bounds (Some [0; 1]%Q).
Proof.
  apply (proj1 (proj2 (proj2 process_bounds_pairs)) [0; 1]%Q 2%Q).
  exists 1%nat. reflexivity.
Defined.

(** One pair for a problem of two dimensions. *)
Lemma main_wrong_number_of_bounds_witness :
  fst (Benchmark.main demo_funcs demo_model_at demo_acquisition_at
         demo_folder one_pair 3 5)
  = (MLSL, Benchmark.branin, Some (Benchmark.pair_up [0; 1]%Q), 2) /\
  snd (Benchmark.main demo_funcs demo_model_at demo_acquisition_at
         demo_folder one_pair 3 5) state0
  = (inl AssertionError, state0).
Proof.
  apply (main_wrong_number_of_bounds demo_funcs demo_model_at
           demo_acquisition_at demo_folder one_pair 3 5 state0 [0; 1]%Q).
  - reflexivity.
  - simpl. lia.
Defined.

(** Two pairs, two trials. *)
Lemma main_writes_one_result_per_trial_witness :
  snd (Benchmark.main demo_funcs demo_model_at demo_acquisition_at
         demo_folder two_pairs 3 5) state0
  = (inr (Benchmark.filepath demo_folder two_pairs, written),
     snd (snd (Benchmark.main demo_funcs demo_model_at demo_acquisition_at
                 demo_folder two_pairs 3 5) state0)) /\
  Benchmark.pickled_dim written = length (domain (demo_funcs Benchmark.branin)) /\
  Benchmark.pickled_maxEvals written
  = 100 * (Z.of_nat (Benchmark.pickled_dim written) + 1) /\
  length (Benchmark.pickled_optres written) = Z.to_nat (Benchmark.ntrials two_pairs) /\
  (forall b, Benchmark.pickled_bounds written = Some b ->
             length b = Benchmark.pickled_dim written).
Proof.
  assert (H : snd (Benchmark.main demo_funcs demo_model_at demo_acquisition_at
                     demo_folder two_pairs 3 5) state0
              = (inr (Benchmark.filepath demo_folder two_pairs, written),
                 snd (snd (Benchmark.main demo_funcs demo_model_at
                             demo_acquisition_at demo_folder two_pairs 3 5)
                        state0))).
  { vm_compute. reflexivity. }
  split; [exact H |].
  destruct (main_writes_one_result_per_trial demo_funcs demo_model_at
              demo_acquisition_at demo_folder two_pairs 3 5 state0 _ _ _ H)
    as (_ & Hdim & Hbudget & _ & Hlen & _ & _ & Hb).
  repeat split; assumption.
Defined.

(** * CycleSearch *)

Module CycleSearchTheory.

Import CycleSearch.

Local Open Scope Q_scope.

(** ** Candidates *)

Lemma Qmax'_lower x lo : lo <= Qmax' x lo.
Proof.
  unfold Qmax'. destruct (Qle_bool x lo) eqn:E.
  - apply Qle_refl.
  - apply Qlt_le_weak, Qnot_le_lt. intros H. apply Qle_bool_iff in H. congruence.
Qed.

Lemma clip_in_bounds x lo hi : lo <= hi -> lo <= clip x lo hi /\ clip x lo hi <= hi.
Proof.
  intros H. unfold clip, Qmin'.
  pose proof (Qmax'_lower x lo) as Hm.
  destruct (Qle_bool (Qmax' x lo) hi) eqn:E.
  - split; [assumption | now apply Qle_bool_iff].
  - split; [assumption | apply Qle_refl].
Qed.

Lemma mapi_from_in_bounds (g : nat -> Q * Q -> Q) ii bounds :
  valid_bounds bounds ->
  forall j, in_bounds bounds
              (mapi_from j (fun j b => admissible ii j b (g j b)) bounds).
Proof.
  unfold valid_bounds, in_bounds.
  induction 1 as [| b bounds Hb _ IH]; intros j; simpl; constructor.
  - unfold admissible. apply clip_in_bounds. now apply Qlt_le_weak.
  - apply IH.
Qed.

Lemma perturbed_in_bounds d s bounds k :
  valid_bounds bounds ->
  X s <> [] ->
  Forall (fun x => length x = length bounds) (X s) ->
  exists p, perturbed d s bounds k = Some p /\ in_bounds bounds p.
Proof.
  intros Hb Hne Hdim. unfold perturbed.
  destruct (X s) as [| x0 rest] eqn:EX; [congruence |].
  set (base := nth (pick d k mod length (x0 :: rest)) (x0 :: rest) x0).
  assert (Hin : In base (x0 :: rest)).
  { apply nth_In. apply Nat.mod_upper_bound. simpl. lia. }
  rewrite List.Forall_forall in Hdim. rewrite (Hdim _ Hin), Nat.eqb_refl.
  eexists. split; [reflexivity |]. now apply mapi_from_in_bounds.
Qed.

Lemma sequence_map {A B} (f : A -> option B) (P : B -> Prop) l :
  (forall a, exists b, f a = Some b /\ P b) ->
  exists r, sequence (map f l) = Some r /\ length r = length l /\ Forall P r.
Proof.
  intros H. induction l as [| a l (r & E & Len & F)]; simpl.
  - exists []. repeat split. constructor.
  - destruct (H a) as (b & Eb & Pb). rewrite Eb, E.
    exists (b :: r). simpl. repeat split; [now rewrite Len | now constructor].
Qed.

Lemma generate_candidates_spec d s bounds nCand :
  valid_bounds bounds ->
  X s <> [] ->
  Forall (fun x => length x = length bounds) (X s) ->
  exists candidates,
    generate_candidates d s bounds nCand = Some candidates /\
    length candidates = (2 * nCand)%nat /\
    Forall (in_bounds bounds) candidates.
Proof.
  intros Hb Hne Hdim. unfold generate_candidates.
  destruct (sequence_map (perturbed d s bounds) (in_bounds bounds) (seq 0 nCand))
    as (local & E & Len & F).
  { intros k. now apply perturbed_in_bounds. }
  rewrite E. eexists. split; [reflexivity |]. split.
  - rewrite length_app, length_map, Len, length_seq. lia.
  - apply Forall_app. split; [exact F |].
    apply List.Forall_forall. intros p Hp. apply in_map_iff in Hp as (k & <- & _).
    now apply mapi_from_in_bounds.
Qed.

(** C1. On valid bounds and a surrogate with evaluated points of the
    dimension of the bounds, [generate_candidates] returns exactly
    [2 * nCand] candidates, each with every coordinate within its bounds,
    for every [nCand > 0] and whatever the random draws. *)
Theorem generate_candidates_count_and_bounds d s bounds nCand :
  (0 < nCand)%nat ->
  valid_bounds bounds ->
  X s <> [] ->
  Forall (fun x => length x = length bounds) (X s) ->
  exists candidates,
    generate_candidates d s bounds nCand = Some candidates /\
    length candidates = (2 * nCand)%nat /\
    Forall (in_bounds bounds) candidates.
Proof. intros _. apply generate_candidates_spec. Qed.

(** ** The order of selection *)

Lemma Qle_bool_false x y : Qle_bool x y = false <-> y < x.
Proof.
  split.
  - intros E. apply Qnot_le_lt. intros H. apply Qle_bool_iff in H. congruence.
  - intros H. destruct (Qle_bool x y) eqn:E; [| reflexivity].
    apply Qle_bool_iff in E. lra.
Qed.

Lemma Qeq_bool_false x y : Qeq_bool x y = false <-> ~ x == y.
Proof.
  split.
  - intros E H. apply Qeq_bool_iff in H. congruence.
  - intros H. destruct (Qeq_bool x y) eqn:E; [| reflexivity].
    apply Qeq_bool_iff in E. contradiction.
Qed.

Lemma better_true b a : better b a = true <-> precedes b a.
Proof.
  unfold better, precedes.
  destruct (Qeq_bool (score b) (score a)) eqn:Es.
  - apply Qeq_bool_iff in Es.
    destruct (Qeq_bool (ndist b) (ndist a)) eqn:Ed.
    + apply Qeq_bool_iff in Ed. rewrite negb_true_iff, Qle_bool_false.
      split; [intros H; right; split; auto | intros H; intuition lra].
    + apply Qeq_bool_false in Ed. rewrite negb_true_iff, Qle_bool_false.
      split; [intros H; right; split; auto | intros H; intuition lra].
  - apply Qeq_bool_false in Es. rewrite negb_true_iff, Qle_bool_false.
    split; [intros H; now left | intros H; intuition lra].
Qed.





Lemma insert_In x y l : In y (CycleSearch.insert x l) <-> y = x \/ In y l.
Proof.
  induction l as [| z l IH]; simpl.
  - intuition.
  - destruct (better z x); simpl; rewrite ?IH; intuition.
Qed.

Lemma sort_In y l : In y (CycleSearch.sort l) <-> In y l.
Proof.
  induction l as [| x l IH]; simpl; [tauto |].
  rewrite insert_In, IH. intuition.
Qed.











(** ** The signals *)

Lemma Qmin'_cases a b : (Qmin' a b = a /\ a <= b) \/ (Qmin' a b = b /\ b < a).
Proof.
  unfold Qmin'. destruct (Qle_bool a b) eqn:E.
  - left. split; [reflexivity | now apply Qle_bool_iff].
  - right. split; [reflexivity | now apply Qle_bool_false].
Qed.

Lemma Qmax'_cases a b : (Qmax' a b = b /\ a <= b) \/ (Qmax' a b = a /\ b < a).
Proof.
  unfold Qmax'. destruct (Qle_bool a b) eqn:E.
  - left. split; [reflexivity | now apply Qle_bool_iff].
  - right. split; [reflexivity | now apply Qle_bool_false].
Qed.

Lemma minimum_le l : forall d,
  minimum d l <= d /\ Forall (fun x => minimum d l <= x) l.
Proof.
  induction l as [| x l IH]; intros d; simpl.
  - split; [lra | constructor].
  - destruct (IH (Qmin' d x)) as [H1 H2].
    destruct (Qmin'_cases d x) as [[E Hle] | [E Hlt]]; rewrite E in *.
    + split; [assumption |]. constructor; [lra | assumption].
    + split; [lra |]. constructor; assumption.
Qed.

Lemma maximum_ge l : forall d,
  d <= maximum d l /\ Forall (fun x => x <= maximum d l) l.
Proof.
  induction l as [| x l IH]; intros d; simpl.
  - split; [lra | constructor].
  - destruct (IH (Qmax' d x)) as [H1 H2].
    destruct (Qmax'_cases d x) as [[E Hle] | [E Hlt]]; rewrite E in *.
    + split; [lra |]. constructor; assumption.
    + split; [assumption |]. constructor; [lra | assumption].
Qed.

Lemma minimum_In l : forall d, minimum d l = d \/ In (minimum d l) l.
Proof.
  induction l as [| x l IH]; intros d; simpl; [now left |].
  destruct (IH (Qmin' d x)) as [E | H]; [| now right; right].
  rewrite E. destruct (Qmin'_cases d x) as [[E' _] | [E' _]]; rewrite E'; auto.
Qed.

(** Scaling keeps the order of two signals within the range: equal signals
    stay equal, a smaller one stays smaller. *)
Lemma scale_eq lo hi x y : x == y -> scale lo hi x == scale lo hi y.
Proof.
  intros H. unfold scale. destruct (Qeq_bool hi lo); [reflexivity |].
  now rewrite H.
Qed.

Lemma scale_lt lo hi x y :
  lo <= x -> y <= hi -> x < y -> scale lo hi x < scale lo hi y.
Proof.
  intros Hx Hy Hlt. unfold scale.
  destruct (Qeq_bool hi lo) eqn:E.
  - apply Qeq_bool_iff in E. lra.
  - unfold Qdiv. apply Qmult_lt_compat_r; [| lra].
    apply Qinv_lt_0_compat. lra.
Qed.

Lemma scale_le lo hi x y :
  lo <= x -> y <= hi -> x <= y -> scale lo hi x <= scale lo hi y.
Proof.
  intros Hx Hy Hle. destruct (Qlt_le_dec x y) as [Hlt | Hge].
  - apply Qlt_le_weak. now apply scale_lt.
  - assert (E : x == y) by lra. rewrite (scale_eq lo hi x y E). lra.
Qed.

Lemma zip_rows_spec w fv fd (Pp : nat * point -> Prop) (Pv Pd : Q -> Prop) ps :
  forall vs ds,
    Forall Pp ps -> Forall Pv vs -> Forall Pd ds ->
    Forall (fun r => Pp (idx r, pt r) /\ Pv (value r) /\ Pd (distance r) /\
                     nvalue r = fv (value r) /\ ndist r = fd (distance r) /\
                     score r = w * ndist r + (1 - w) * (1 - nvalue r))
           (zip_rows w ps vs ds (map fv vs) (map fd ds)).
Proof.
  induction ps as [| [i p] ps IH]; intros vs ds Hp Hv Hd; simpl; [constructor |].
  destruct vs as [| x vs]; simpl; [constructor |].
  destruct ds as [| y ds]; simpl; [constructor |].
  inversion Hp; inversion Hv; inversion Hd; subst.
  constructor; [simpl; repeat split; assumption |].
  now apply IH.
Qed.

Lemma normalize_map v :
  exists lo hi, normalize v = map (scale lo hi) v /\
                Forall (fun x => lo <= x /\ x <= hi) v.
Proof.
  destruct v as [| x v]; simpl.
  - exists 0, 0. split; [reflexivity | constructor].
  - exists (minimum x v), (maximum x v). split; [reflexivity |].
    destruct (minimum_le v x) as [H1 H2], (maximum_ge v x) as [H3 H4].
    constructor; [split; assumption |].
    rewrite List.Forall_forall in *. intros y Hy. split; auto.
Qed.

(** What [scored] returns: rows of the surviving candidates, scaled over
    common ranges. *)
Lemma scored_spec `{Sqrt} cs s candidates w ev rows :
  scored cs s candidates w ev = Some rows ->
  exists ps lov hiv lod hid,
    survivors cs candidates ev = Some ps /\
    Forall (fun r => In (idx r, pt r) ps /\ row_of w lov hiv lod hid r) rows.
Proof.
  unfold scored. destruct (survivors cs candidates ev) as [ps |]; [| discriminate].
  destruct (sequence _) as [ds |]; [| discriminate].
  destruct (Nat.eqb _ _); [| discriminate].
  intros E. inversion E; subst rows; clear E.
  destruct (normalize_map (call s (map snd ps))) as (lov & hiv & -> & Hv).
  destruct (normalize_map ds) as (lod & hid & -> & Hd).
  exists ps, lov, hiv, lod, hid. split; [reflexivity |].
  assert (Hps : Forall (fun ip => In ip ps) ps)
    by (apply List.Forall_forall; auto).
  pose proof (zip_rows_spec w (scale lov hiv) (scale lod hid) _ _ _ ps _ _
                Hps Hv Hd) as Hrows.
  eapply List.Forall_impl; [| exact Hrows].
  simpl. intros r (Hp & Hvr & Hdr & E1 & E2 & E3). unfold row_of. tauto.
Qed.

(** [b] has a value no higher and a distance no smaller than [a], one of
    them strictly: [b] precedes [a], for every weight in the unit
    interval. *)
Lemma dominance w lov hiv lod hid a b :
  0 <= w -> w <= 1 ->
  row_of w lov hiv lod hid a -> row_of w lov hiv lod hid b ->
  value b <= value a -> distance a <= distance b ->
  value b < value a \/ distance a < distance b ->
  precedes b a.
Proof.
  intros Hw0 Hw1 (Ea1 & Ea2 & Ea3 & [Av1 Av2] & [Ad1 Ad2])
         (Eb1 & Eb2 & Eb3 & [Bv1 Bv2] & [Bd1 Bd2]) Hv Hd Hstrict.
  pose proof (scale_le lov hiv _ _ Bv1 Av2 Hv) as Nv.
  pose proof (scale_le lod hid _ _ Ad1 Bd2 Hd) as Nd.
  rewrite <- Ea1, <- Eb1 in Nv. rewrite <- Ea2, <- Eb2 in Nd.
  assert (P1 : 0 <= w * (ndist b - ndist a)) by (apply Qmult_le_0_compat; lra).
  assert (P2 : 0 <= (1 - w) * (nvalue a - nvalue b))
    by (apply Qmult_le_0_compat; lra).
  assert (Hdiff : score b - score a
                  == w * (ndist b - ndist a) + (1 - w) * (nvalue a - nvalue b)).
  { rewrite Ea3, Eb3. ring. }
  unfold precedes.
  destruct (Qlt_le_dec (score a) (score b)) as [Hs | Hs]; [now left |].
  right. split; [lra |].
  destruct (Qlt_le_dec (distance a) (distance b)) as [Hdl | Hdg].
  - left. rewrite Ea2, Eb2. now apply scale_lt.
  - right. assert (Ed : distance b == distance a) by lra.
    split.
    + rewrite Ea2, Eb2. now apply scale_eq.
    + destruct Hstrict as [Hvl | Hdl]; [| lra].
      rewrite Ea1, Eb1. now apply scale_lt.
Qed.

(** ** Selection *)

Lemma selected_spec `{Sqrt} cs s candidates n w ev sel :
  selected cs s candidates n w ev = Some sel ->
  exists rows, scored cs s candidates w ev = Some rows /\
               sel = firstn n (CycleSearch.sort rows).
Proof.
  unfold selected. destruct (scored cs s candidates w ev) as [rows |];
    [| discriminate].
  intros E. inversion E. now exists rows.
Qed.

Lemma select_candidates_selected `{Sqrt} cs s candidates bounds n w ev sel :
  selected cs s candidates n w ev = Some sel ->
  select_candidates cs s candidates bounds n w ev = Some (map pt sel).
Proof. intros E. unfold select_candidates. now rewrite E. Qed.

Lemma In_firstn {A} (x : A) n l : In x (firstn n l) -> In x l.
Proof.
  revert l. induction n as [| n IH]; intros [| y l]; simpl; try tauto.
  intros [-> | Hx]; auto.
Qed.


Lemma combine_indexed {A} (l : list A) : forall (sc : list Q) k i p e,
  In (i, p, e) (combine (indexed_from k l) sc) ->
  (k <= i)%nat /\ l !! (i - k)%nat = Some p /\ sc !! (i - k)%nat = Some e.
Proof.
  induction l as [| x l IH]; intros [| e0 sc] k i p e; simpl; try tauto.
  intros [E | Hin].
  - inversion E; subst. rewrite Nat.sub_diag. auto.
  - apply IH in Hin as (Hk & Hl & Hs).
    replace (i - k)%nat with (S (i - S k)) by lia. simpl. split; [lia | auto].
Qed.

Lemma survivors_spec cs candidates ev ps :
  survivors cs candidates (Some ev) = Some ps ->
  Forall (fun ip => candidates !! fst ip = Some (snd ip) /\
                    exists e, call ev candidates !! fst ip = Some e /\
                              threshold cs <= e) ps.
Proof.
  unfold survivors. destruct (Nat.eqb _ _); [| discriminate].
  intros E. inversion E; subst ps; clear E.
  apply List.Forall_forall. intros [i p] Hin.
  apply in_map_iff in Hin as ([[i' p'] e] & Heq & Hin). simpl in Heq.
  inversion Heq; subst i' p'; clear Heq.
  apply filter_In in Hin as [Hin Hle]. simpl in Hle.
  apply Qle_bool_iff in Hle.
  apply combine_indexed in Hin as (_ & Hl & Hs).
  rewrite Nat.sub_0_r in Hl, Hs. simpl. split; [assumption | now exists e].
Qed.

(** C4. With an evaluability surrogate, the selection is made of rows of
    the candidate array, and no row whose evaluability score is below the
    threshold is among them, whatever its value and distance. *)
Theorem evaluability_filter `{Sqrt} cs s candidates bounds n w ev sel :
  selected cs s candidates n w (Some ev) = Some sel ->
  select_candidates cs s candidates bounds n w (Some ev) = Some (map pt sel) /\
  Forall (fun r => candidates !! idx r = Some (pt r)) sel /\
  forall i e, call ev candidates !! i = Some e -> e < threshold cs ->
              ~ In i (map idx sel).
Proof.
  intros Hsel.
  destruct (selected_spec _ _ _ _ _ _ _ Hsel) as (rows & Hrows & ->).
  destruct (scored_spec _ _ _ _ _ _ Hrows) as (ps & lov & hiv & lod & hid & Hps & Hall).
  apply survivors_spec in Hps.
  rewrite List.Forall_forall in Hall, Hps.
  assert (Hrow : forall r, In r (firstn n (CycleSearch.sort rows)) ->
                           candidates !! idx r = Some (pt r) /\
                           exists e, call ev candidates !! idx r = Some e /\
                                     threshold cs <= e).
  { intros r Hr. apply In_firstn in Hr. apply (proj1 (sort_In _ _)) in Hr.
    destruct (Hall r Hr) as [Hin _]. apply (Hps _ Hin). }
  split; [now apply select_candidates_selected | split].
  - apply List.Forall_forall. intros r Hr. now apply Hrow.
  - intros i e He Hlow Hin. apply in_map_iff in Hin as (r & <- & Hr).
    destruct (Hrow r Hr) as (_ & e' & He' & Hle).
    rewrite He in He'. inversion He'; subst e'. lra.
Qed.

(** ** The weighted scenario of the tests *)

Lemma Qmin'_le_l a b : Qmin' a b <= a.
Proof. destruct (Qmin'_cases a b) as [[-> ?] | [-> ?]]; lra. Qed.

Lemma Qmin'_le_r a b : Qmin' a b <= b.
Proof. destruct (Qmin'_cases a b) as [[-> ?] | [-> ?]]; lra. Qed.

Lemma Qmax'_ge_l a b : a <= Qmax' a b.
Proof. destruct (Qmax'_cases a b) as [[-> ?] | [-> ?]]; lra. Qed.

Lemma Qmax'_ge_r a b : b <= Qmax' a b.
Proof. destruct (Qmax'_cases a b) as [[-> ?] | [-> ?]]; lra. Qed.

Lemma Qmin'_above a b c : c < a -> c < b -> c < Qmin' a b.
Proof. intros. destruct (Qmin'_cases a b) as [[-> ?] | [-> ?]]; lra. Qed.

Ltac within_range :=
  first [ apply Qmin'_le_l | apply Qmin'_le_r
        | apply Qmax'_ge_l | apply Qmax'_ge_r ].

(** C5. Training points [[5,5],[6,6],[3,4]] with outputs [0, 1, 0.5],
    candidates [[0,0],[2,6],[7,0.5]] with evaluability scores
    [0.1, 1, 1], weight 0.75 and [n = 1]: the selection is [[7, 0.5]], for
    every threshold above 0.1 and up to 1 and every increasing square
    root. *)
Theorem weighted_scenario `{Sqrt} cs :
  (forall x y, 0 <= x -> x < y -> sqrtQ x < sqrtQ y) ->
  1 # 10 < threshold cs -> threshold cs <= 1 ->
  select_candidates cs
    (MockSurrogateModel Demo.X_train Demo.Y_train) Demo.candidates Demo.box
    1 (3 # 4)
    (Some (MockEvaluabilitySurrogate Demo.X_train Demo.Y_train))
  = Some [[7; 1 # 2]].
Proof.
  intros Hmono Ht1 Ht2.
  assert (E1 : Qle_bool (threshold cs) (1 # 10) = false) by now apply Qle_bool_false.
  assert (E2 : Qle_bool (threshold cs) 1 = true) by now apply Qle_bool_iff.
  unfold select_candidates, selected, scored, survivors. simpl.
  rewrite E1, E2. simpl.
  match goal with
  | |- context [if better ?b ?a then _ else _] =>
      assert (Hb : better b a = true); [| now rewrite Hb]
  end.
  apply better_true.
  eapply (dominance (3 # 4)); try lra.
  - unfold row_of. simpl. repeat split; try reflexivity; within_range.
  - unfold row_of. simpl. repeat split; try reflexivity; within_range.
  - simpl. lra.
  - simpl. apply Qlt_le_weak.
    eapply Qle_lt_trans; [apply Qmin'_le_r |].
    unfold dist. repeat apply Qmin'_above; apply Hmono; simpl; lra.
  - right. simpl.
    eapply Qle_lt_trans; [apply Qmin'_le_r |].
    unfold dist. repeat apply Qmin'_above; apply Hmono; simpl; lra.
Qed.

(** ** optimize *)


Lemma indexed_from_snd {A} (l : list A) k : map snd (indexed_from k l) = l.
Proof. revert k. induction l as [| a l IH]; intros k; simpl; [| rewrite IH]; auto. Qed.






End CycleSearchTheory.

(** * CycleSearch on concrete inputs *)

Import CycleSearch.

Lemma generate_candidates_count_and_bounds_witness :
  exists cands,
    generate_candidates Demo.draws
      (MockSurrogateModel Demo.X_train1 Demo.Y_train1) Demo.box 200 = Some cands /\
    length cands = (2 * 200)%nat /\
    Forall (in_bounds Demo.box) cands.
Proof.
  apply (CycleSearchTheory.generate_candidates_count_and_bounds Demo.draws
           (MockSurrogateModel Demo.X_train1 Demo.Y_train1) Demo.box 200).
  - lia.
  - repeat constructor.
  - discriminate.
  - repeat constructor.
Defined.


Lemma weighted_scenario_witness :
  @select_candidates Demo.identity_root (mkCycleSearch (1 # 2) 1)
    (MockSurrogateModel Demo.X_train Demo.Y_train) Demo.candidates Demo.box
    1 (3 # 4)
    (Some (MockEvaluabilitySurrogate Demo.X_train Demo.Y_train))
  = Some [[7; 1 # 2]%Q].
Proof.
  apply (@CycleSearchTheory.weighted_scenario Demo.identity_root
           (mkCycleSearch (1 # 2) 1)).
  - intros x y _ Hlt. exact Hlt.
  - reflexivity.
  - discriminate.
Defined.


Lemma evaluability_filter_witness :
  @select_candidates Demo.identity_root Demo.small_pool
    (MockSurrogateModel Demo.X_train1 Demo.Y_train1) Demo.candidates1 Demo.box
    1 (1 # 2) (Some (MockEvaluabilitySurrogate Demo.X_train1 Demo.Y_train1))
  = Some (map pt Demo.selection1) /\
  Forall (fun r => Demo.candidates1 !! idx r = Some (pt r)) Demo.selection1 /\
  forall i e,
    call (MockEvaluabilitySurrogate Demo.X_train1 Demo.Y_train1) Demo.candidates1 !! i
      = Some e ->
    (e < threshold Demo.small_pool)%Q ->
    ~ In i (map idx Demo.selection1).
Proof.
  apply (@CycleSearchTheory.evaluability_filter Demo.identity_root Demo.small_pool
           (MockSurrogateModel Demo.X_train1 Demo.Y_train1) Demo.candidates1
           Demo.box 1 (1 # 2)
           (MockEvaluabilitySurrogate Demo.X_train1 Demo.Y_train1)
           Demo.selection1).
  reflexivity.
Defined.
